(** * node-caskdb: the record codec (format.ts) and the log store
      (disk-store.ts)

    A shallow embedding of the two layers of the engine and the theorems
    that settle the properties stated about them.

    Modelling conventions.
    - A JavaScript number is an integer [Z]; every range check the code or
      the platform performs is written out.
    - A [Buffer] is a [list byte].
    - A JavaScript string is the list of its UTF-16 code units, each a
      [Z] in [0, 65535].  [Buffer.byteLength], [buff.write] and
      [buff.toString("utf8", s, e)] go through the UTF-8 transcoding of
      the platform: on the way out an unpaired surrogate is written as the
      three bytes of U+FFFD, on the way in every ill-formed byte sequence
      is read as U+FFFD.
    - A thrown exception is the [Throw] case of [Result]; code that throws
      after having changed the store keeps the changes made so far. *)

From Stdlib Require Import ZArith Lia ZifyBool List Strings.String Strings.Byte.
From Stdlib Require Import Strings.Ascii.
From stdpp Require Import gmap strings list fin_maps.

Local Open Scope Z_scope.

(** ** Exceptions *)

(** The errors the engine can raise.  The first three are the
    [RangeError]s of node:buffer, the last one stands for a rejected
    file-system call. *)
Inductive Error : Type :=
| ERR_OUT_OF_RANGE_value
| ERR_OUT_OF_RANGE_offset
| ERR_BUFFER_OUT_OF_BOUNDS
| EIO.

Inductive Result (A : Type) : Type :=
| Ok (a : A)
| Throw (e : Error).
Arguments Ok {A} a.
Arguments Throw {A} e.

#[global] Instance Result_ret : MRet Result := fun A a => Ok a.
#[global] Instance Result_bind : MBind Result := fun A B f m =>
  match m with
  | Ok a => f a
  | Throw e => Throw e
  end.

(** ** node:buffer, as far as format.ts and disk-store.ts use it *)

Module Buffer.

Definition Buffer : Type := list byte.

Definition len (buf : Buffer) : Z := Z.of_nat (length buf).

(** Storing a number into a [Uint8Array] slot keeps its low 8 bits. *)
Definition byte_of_Z (z : Z) : byte :=
  match Byte.of_N (Z.to_N (Z.land z 255)) with
  | Some b => b
  | None => x00
  end.

Definition Z_of_byte (b : byte) : Z := Z.of_N (Byte.to_N b).

(** [Buffer.alloc(size)]: a zero-filled buffer. *)
Definition alloc (size : Z) : Buffer := replicate (Z.to_nat size) x00.

(** *** Strings and their UTF-8 transcoding *)

(** The string literal with the characters of [s], for ASCII text. *)
Definition js (s : string) : list Z :=
  map (fun a => Z.of_N (N_of_ascii a)) (list_ascii_of_string s).

(** The comparison [s === e] with the empty string [e]. *)
Definition is_empty (s : list Z) : bool :=
  match s with
  | [] => true
  | _ :: _ => false
  end.

(** U+FFFD, the replacement character. *)
Definition REPLACEMENT : Z := 65533.

(** A leading surrogate (D800..DBFF), a trailing surrogate (DC00..DFFF),
    a code unit. *)
Definition is_high (u : Z) : bool := (55296 <=? u) && (u <=? 56319).
Definition is_low (u : Z) : bool := (56320 <=? u) && (u <=? 57343).
Definition is_unit (u : Z) : bool := (0 <=? u) && (u <=? 65535).

(** The code point of a surrogate pair. *)
Definition pair_cp (h l : Z) : Z := 65536 + (h - 55296) * 1024 + (l - 56320).

(** The code units of a code point. *)
Definition units_of_cp (cp : Z) : list Z :=
  if cp <? 65536 then [cp]
  else [55296 + (cp - 65536) / 1024; 56320 + (cp - 65536) mod 1024].

(** The UTF-8 bytes of a code point. *)
Definition utf8_cp (cp : Z) : list byte :=
  if cp <? 128 then [byte_of_Z cp]
  else if cp <? 2048 then
    [byte_of_Z (192 + cp / 64); byte_of_Z (128 + cp mod 64)]
  else if cp <? 65536 then
    [byte_of_Z (224 + cp / 4096); byte_of_Z (128 + (cp / 64) mod 64);
     byte_of_Z (128 + cp mod 64)]
  else
    [byte_of_Z (240 + cp / 262144); byte_of_Z (128 + (cp / 4096) mod 64);
     byte_of_Z (128 + (cp / 64) mod 64); byte_of_Z (128 + cp mod 64)].

(** The UTF-8 bytes of a string, as [buf.write] stores them and
    [Buffer.byteLength] counts them: a surrogate pair is one code point, a
    surrogate without its partner is written as U+FFFD. *)
Fixpoint utf8_encode (s : list Z) : list byte :=
  match s with
  | [] => []
  | u :: s' =>
      if is_high u then
        match s' with
        | l :: s'' =>
            if is_low l then utf8_cp (pair_cp u l) ++ utf8_encode s''
            else utf8_cp REPLACEMENT ++ utf8_encode s'
        | [] => utf8_cp REPLACEMENT
        end
      else if is_low u || negb (is_unit u) then
        utf8_cp REPLACEMENT ++ utf8_encode s'
      else utf8_cp u ++ utf8_encode s'
  end.

(** One character, written whole or not at all: [bytes] are the bytes of
    the character, [n] is the room left, and [rest] writes what follows
    the character into the room behind it. *)
Definition fit_char (n : nat) (bytes : list byte)
    (rest : nat -> list byte) : list byte :=
  if (length bytes <=? n)%nat then bytes ++ rest (n - length bytes)%nat
  else [].

(** The bytes that [buf.write] stores where [n] bytes are left: the UTF-8
    bytes of the characters of the string up to the first one that does
    not fit whole. *)
Fixpoint utf8_write (s : list Z) (n : nat) : list byte :=
  match s with
  | [] => []
  | u :: s' =>
      if is_high u then
        match s' with
        | l :: s'' =>
            if is_low l then
              fit_char n (utf8_cp (pair_cp u l)) (utf8_write s'')
            else fit_char n (utf8_cp REPLACEMENT) (utf8_write s')
        | [] => fit_char n (utf8_cp REPLACEMENT) (fun _ => [])
        end
      else if is_low u || negb (is_unit u) then
        fit_char n (utf8_cp REPLACEMENT) (utf8_write s')
      else fit_char n (utf8_cp u) (utf8_write s')
  end.

(** [str.toWellFormed()]: every surrogate without its partner replaced by
    U+FFFD. *)
Fixpoint toWellFormed (s : list Z) : list Z :=
  match s with
  | [] => []
  | u :: s' =>
      if is_high u then
        match s' with
        | l :: s'' =>
            if is_low l then u :: l :: toWellFormed s''
            else REPLACEMENT :: toWellFormed s'
        | [] => [REPLACEMENT]
        end
      else if is_low u || negb (is_unit u) then REPLACEMENT :: toWellFormed s'
      else u :: toWellFormed s'
  end.

(** [str.isWellFormed()] *)
Definition isWellFormed (s : list Z) : Prop := toWellFormed s = s.

(** A continuation byte (80..BF). *)
Definition is_cont (x : Z) : bool := (128 <=? x) && (x <=? 191).

(** The string that a UTF-8 decoder with replacement reads from bytes:
    every maximal part of an ill-formed sequence gives one U+FFFD, which
    is what [buf.toString("utf8")] returns. *)
Fixpoint utf8_decode (bs : list byte) : list Z :=
  match bs with
  | [] => []
  | b0 :: r0 =>
      let x0 := Z_of_byte b0 in
      if x0 <? 128 then x0 :: utf8_decode r0
      else if (194 <=? x0) && (x0 <=? 223) then
        match r0 with
        | b1 :: r1 =>
            let x1 := Z_of_byte b1 in
            if is_cont x1 then
              ((x0 - 192) * 64 + (x1 - 128)) :: utf8_decode r1
            else REPLACEMENT :: utf8_decode r0
        | [] => [REPLACEMENT]
        end
      else if (224 <=? x0) && (x0 <=? 239) then
        let lower := if x0 =? 224 then 160 else 128 in
        let upper := if x0 =? 237 then 159 else 191 in
        match r0 with
        | b1 :: r1 =>
            let x1 := Z_of_byte b1 in
            if (lower <=? x1) && (x1 <=? upper) then
              match r1 with
              | b2 :: r2 =>
                  let x2 := Z_of_byte b2 in
                  if is_cont x2 then
                    ((x0 - 224) * 4096 + (x1 - 128) * 64 + (x2 - 128))
                      :: utf8_decode r2
                  else REPLACEMENT :: utf8_decode r1
              | [] => [REPLACEMENT]
              end
            else REPLACEMENT :: utf8_decode r0
        | [] => [REPLACEMENT]
        end
      else if (240 <=? x0) && (x0 <=? 244) then
        let lower := if x0 =? 240 then 144 else 128 in
        let upper := if x0 =? 244 then 143 else 191 in
        match r0 with
        | b1 :: r1 =>
            let x1 := Z_of_byte b1 in
            if (lower <=? x1) && (x1 <=? upper) then
              match r1 with
              | b2 :: r2 =>
                  let x2 := Z_of_byte b2 in
                  if is_cont x2 then
                    match r2 with
                    | b3 :: r3 =>
                        let x3 := Z_of_byte b3 in
                        if is_cont x3 then
                          units_of_cp
                            ((x0 - 240) * 262144 + (x1 - 128) * 4096
                             + (x2 - 128) * 64 + (x3 - 128))
                            ++ utf8_decode r3
                        else REPLACEMENT :: utf8_decode r2
                    | [] => [REPLACEMENT]
                    end
                  else REPLACEMENT :: utf8_decode r1
              | [] => [REPLACEMENT]
              end
            else REPLACEMENT :: utf8_decode r0
        | [] => [REPLACEMENT]
        end
      else REPLACEMENT :: utf8_decode r0
  end.

(** [Buffer.byteLength(str)]: the number of UTF-8 bytes of [str]. *)
Definition byteLength (s : list Z) : Z := len (utf8_encode s).

(** Overwrite [buf] from index [off] with [bytes]; the callers below have
    checked that the bytes fit. *)
Definition store (buf : Buffer) (off : nat) (bytes : list byte) : Buffer :=
  take off buf ++ bytes ++ drop (off + length bytes) buf.

(** [boundsError(offset, buf.length - 4)] for an integer offset. *)
Definition boundsError (buf : Buffer) : Error :=
  if len buf - 4 <? 0 then ERR_BUFFER_OUT_OF_BOUNDS
  else ERR_OUT_OF_RANGE_offset.

(** [buf[offset] === undefined || buf[offset + 3] === undefined] *)
Definition out_of_bounds (buf : Buffer) (offset : Z) : bool :=
  (offset <? 0) || (len buf <=? offset + 3).

(** [buf.readUInt32LE(offset)] *)
Definition readUInt32LE (buf : Buffer) (offset : Z) : Result Z :=
  if out_of_bounds buf offset then Throw (boundsError buf)
  else
    match drop (Z.to_nat offset) buf with
    | first :: b1 :: b2 :: last :: _ =>
        Ok (Z_of_byte first + Z_of_byte b1 * 2 ^ 8
            + Z_of_byte b2 * 2 ^ 16 + Z_of_byte last * 2 ^ 24)
    | _ => Throw (boundsError buf)
    end.

(** The four bytes [writeUInt32LE] stores, lowest first: the value and
    its successive [>>> 8] shifts, each cut to a byte by the store. *)
Definition uint32le (value : Z) : list byte :=
  [byte_of_Z value; byte_of_Z (Z.shiftr value 8);
   byte_of_Z (Z.shiftr value 16); byte_of_Z (Z.shiftr value 24)].

(** [buf.writeUInt32LE(value, offset)]: the value is checked against
    [0, 2^32 - 1] first, then the offset against the buffer. *)
Definition writeUInt32LE (buf : Buffer) (value offset : Z) : Result Buffer :=
  if (value >? 4294967295) || (value <? 0) then Throw ERR_OUT_OF_RANGE_value
  else if out_of_bounds buf offset then Throw (boundsError buf)
  else Ok (store buf (Z.to_nat offset) (uint32le value)).

(** [buf.write(string, offset)]: the offset is checked against the
    buffer, then the UTF-8 bytes of [string] are stored from [offset] on,
    as many whole characters as fit in the rest of the buffer. *)
Definition write (buf : Buffer) (s : list Z) (offset : Z) : Result Buffer :=
  if (offset <? 0) || (len buf <? offset) then Throw ERR_OUT_OF_RANGE_offset
  else
    let off := Z.to_nat offset in
    Ok (store buf off (utf8_write s (length buf - off))).

(** [buf.toString("utf8", start, end)]: both bounds are clamped to the
    buffer, an empty or inverted range gives the empty string, and the
    bytes of the range are decoded. *)
Definition toString (buf : Buffer) (start end_ : Z) : list Z :=
  let start := Z.max 0 start in
  if len buf <=? start then []
  else
    let end_ := Z.min end_ (len buf) in
    if end_ <=? start then []
    else
      utf8_decode
        (take (Z.to_nat (end_ - start)) (drop (Z.to_nat start) buf)).

End Buffer.

(** ** format.ts *)

Module Format.
Import Buffer.

Definition HEADER_SIZE : Z := 12.

(** [class KeyEntry] *)
Record KeyEntry : Type := mkKeyEntry {
  timestamp : Z;
  position : Z;
  size : Z
}.

(** [encodeHeader(buff, timestamp, kSize, vSize)]; the buffer is updated
    in place, so the updated buffer is the result. *)
Definition encodeHeader (buff : Buffer) (timestamp kSize vSize : Z)
  : Result Buffer :=
  buff ← writeUInt32LE buff timestamp 0;
  buff ← writeUInt32LE buff kSize 4;
  writeUInt32LE buff vSize 8.

(** [decodeHeader(buffer, offset)] *)
Definition decodeHeader (buffer : Buffer) (offset : Z) : Result (Z * Z * Z) :=
  timestamp ← readUInt32LE buffer offset;
  keySize ← readUInt32LE buffer (offset + 4);
  valueSize ← readUInt32LE buffer (offset + 8);
  mret (timestamp, keySize, valueSize).

(** [encodeKV(timestamp, key, value)] *)
Definition encodeKV (timestamp : Z) (key value : list Z) : Result Buffer :=
  let kSize := byteLength key in
  let vSize := byteLength value in
  let buff := alloc (HEADER_SIZE + kSize + vSize) in
  buff ← encodeHeader buff timestamp kSize vSize;
  write buff (key ++ value) HEADER_SIZE.

(** [decodeKV(buff, offset)]: the header is read at [offset], the key and
    the value are sliced from [HEADER_SIZE] on. *)
Definition decodeKV (buff : Buffer) (offset : Z)
  : Result (Z * list Z * list Z) :=
  '(timestamp, kSize, vSize) ← decodeHeader buff offset;
  let key := toString buff HEADER_SIZE (HEADER_SIZE + kSize) in
  let value :=
    toString buff (HEADER_SIZE + kSize) (HEADER_SIZE + kSize + vSize) in
  mret (timestamp, key, value).

End Format.

(** ** disk-store.ts *)

Module DiskStore.
Import Buffer Format.

(** The closure state of one [DiskStorage] instance: the contents of the
    file behind the handle [_file] (opened with flag "a+": every write
    appends, reads are positional), the index [_keyDir] and the cursor
    [_writePosition]. *)
Record Store : Type := mkStore {
  _file : list byte;
  _keyDir : gmap (list Z) KeyEntry;
  _writePosition : Z
}.

(** What the file system does during one call of [set]: both calls
    succeed, or [write] rejects after some bytes of the record reached
    the file, or [write] succeeds and [sync] rejects. *)
Inductive Disk : Type :=
| DiskOk
| WriteFails (written : nat)
| SyncFails.

(** Computations over the store that may throw; the store reached at the
    moment of the throw is kept. *)
Definition M (A : Type) : Type := Store -> Result A * Store.

#[global] Instance M_ret : MRet M := fun A a st => (Ok a, st).
#[global] Instance M_bind : MBind M := fun A B f m st =>
  match m st with
  | (Ok a, st') => f a st'
  | (Throw e, st') => (Throw e, st')
  end.

Definition lift {A} (r : Result A) : M A := fun st => (r, st).
Definition gets {A} (f : Store -> A) : M A := fun st => (Ok (f st), st).
Definition modify (f : Store -> Store) : M unit := fun st => (Ok tt, f st).

Definition with_file (f : list byte) (st : Store) : Store :=
  mkStore f (_keyDir st) (_writePosition st).
Definition with_keyDir (kd : gmap (list Z) KeyEntry) (st : Store) : Store :=
  mkStore (_file st) kd (_writePosition st).
Definition with_writePosition (wp : Z) (st : Store) : Store :=
  mkStore (_file st) (_keyDir st) wp.

(** [_file.read(buffer, 0, length, position)]: copies the bytes the file
    holds in [position, position + length) to the front of [buffer] and
    returns their number with the buffer; a short read is not an
    error.  Both call sites pass a buffer of [length] bytes and a
    position that is not negative. *)
Definition file_read (file : list byte) (buffer : Buffer)
    (length_ position : Z) : Z * Buffer :=
  let data := take (Z.to_nat length_) (drop (Z.to_nat position) file) in
  (len data, store buffer 0 data).

(** [_file.write(data)] on a handle opened for appending. *)
Definition file_write (disk : Disk) (data : Buffer) : M unit := fun st =>
  match disk with
  | WriteFails n => (Throw EIO, with_file (_file st ++ take n data) st)
  | _ => (Ok tt, with_file (_file st ++ data) st)
  end.

(** [_file.sync()] *)
Definition file_sync (disk : Disk) : M unit := fun st =>
  match disk with
  | SyncFails => (Throw EIO, st)
  | _ => (Ok tt, st)
  end.

(** [_keyDir.has(key)] *)
Definition has (keyDir : gmap (list Z) KeyEntry) (key : list Z) : bool :=
  match keyDir !! key with
  | Some _ => true
  | None => false
  end.

(** The [while (offset < readResult.bytesRead)] loop of [_initKeyDir].
    [fuel] bounds the number of iterations; [None] means that it ran
    out, which [_initKeyDir_loop_fuel] below excludes for the fuel that
    [_initKeyDir] passes. *)
Fixpoint _initKeyDir_loop (fuel : nat) (buffer : Buffer)
    (bytesRead offset : Z) (keyDir : gmap (list Z) KeyEntry)
  : option (Result unit * gmap (list Z) KeyEntry) :=
  if offset <? bytesRead then
    match fuel with
    | O => None
    | S fuel =>
        match decodeHeader buffer offset with
        | Throw e => Some (Throw e, keyDir)
        | Ok (timestamp, keySize, valueSize) =>
            let entrySize := HEADER_SIZE + keySize + valueSize in
            let key :=
              toString buffer (offset + HEADER_SIZE)
                (offset + HEADER_SIZE + keySize) in
            let value :=
              toString buffer (offset + HEADER_SIZE + keySize)
                (offset + HEADER_SIZE + keySize + valueSize) in
            if is_empty value && has keyDir key then
              _initKeyDir_loop fuel buffer bytesRead (offset + entrySize)
                (delete key keyDir)
            else
              _initKeyDir_loop fuel buffer bytesRead (offset + entrySize)
                (<[key := {| size := HEADER_SIZE + keySize + valueSize;
                             position := offset;
                             timestamp := timestamp |}]> keyDir)
        end
    end
  else Some (Ok tt, keyDir).

(** [_initKeyDir()].  The loop gets more fuel than the buffer has bytes;
    by [_initKeyDir_loop_result] the [None] branch is never taken. *)
Definition _initKeyDir : M unit := fun st =>
  let stat_size := len (_file st) in
  let buffer := alloc stat_size in
  let '(bytesRead, buffer) := file_read (_file st) buffer stat_size 0 in
  if bytesRead =? 0 then (Ok tt, st)
  else
    match _initKeyDir_loop (S (length buffer)) buffer bytesRead 0
            (_keyDir st) with
    | Some (r, keyDir) => (r, with_keyDir keyDir st)
    | None => (Ok tt, st)
    end.

(** [DiskStorage(path)], for a path whose file holds [file] (the empty
    list for a file that "a+" has just created).  The promise rejects
    when [_initKeyDir] throws. *)
Definition DiskStorage (file : list byte) : Result Store :=
  match _initKeyDir (mkStore file ∅ 0) with
  | (Ok _, st) => Ok st
  | (Throw e, _) => Throw e
  end.

(** [set(key, value)].  [timestamp()] is imported from format.js, whose
    source does not define it; its reading [ts] is an argument. *)
Definition set (disk : Disk) (ts : Z) (key value : list Z) : M unit :=
  data ← lift (encodeKV ts key value);
  file_write disk data;;
  file_sync disk;;
  position ← gets _writePosition;
  let entry := mkKeyEntry ts position (len data) in
  modify (fun st => with_keyDir (<[key := entry]> (_keyDir st)) st);;
  modify (fun st => with_writePosition (_writePosition st + len data) st).

(** [get(key)]; [None] is [undefined]. *)
Definition get (key : list Z) : M (option (list Z)) :=
  keyDir ← gets _keyDir;
  match keyDir !! key with
  | None => mret None
  | Some entry =>
      file ← gets _file;
      let buffer := alloc (size entry) in
      let '(_, buffer) :=
        file_read file buffer (size entry) (position entry) in
      '(_, _key, value) ← lift (decodeKV buffer 0);
      mret (Some value)
  end.

(** [close()]: the instance is dropped, the file stays. *)
Definition close (st : Store) : list byte := _file st.

(** The file is cut to its first [n] bytes by another program. *)
Definition truncated (n : nat) (st : Store) : Store :=
  with_file (take n (_file st)) st.

End DiskStore.

(** ** Vocabulary of the statements *)

Module Log.
Import Buffer Format DiskStore.

Definition in_uint32 (v : Z) : Prop := 0 <= v <= 4294967295.

(** A record (timestamp, key, value) whose three header fields fit in
    32 bits. *)
Definition valid_record (r : Z * list Z * list Z) : Prop :=
  let '(ts, key, value) := r in
  in_uint32 ts /\ in_uint32 (byteLength key) /\ in_uint32 (byteLength value).

(** The bytes behind the header of a row: the UTF-8 bytes of the
    concatenated string [key + value], and zero bytes up to the sum of the
    two byte lengths where the concatenation is shorter (a key that ends
    in a leading surrogate before a value that starts with a trailing
    one). *)
Definition payload (key value : list Z) : list byte :=
  let bytes := utf8_encode (key ++ value) in
  bytes
    ++ replicate (Z.to_nat (byteLength key + byteLength value) - length bytes)
         x00.

(** The row that the comment of format.ts draws: the three header
    fields, then the bytes of key and value. *)
Definition record_bytes (r : Z * list Z * list Z) : list byte :=
  let '(ts, key, value) := r in
  uint32le ts ++ uint32le (byteLength key) ++ uint32le (byteLength value)
    ++ payload key value.

(** The key and the value that are read back from the row of a record:
    the decoded first [byteLength key] bytes behind the header, and the
    decoded rest. *)
Definition stored_key (r : Z * list Z * list Z) : list Z :=
  let '(_, key, value) := r in
  utf8_decode (take (Z.to_nat (byteLength key)) (payload key value)).

Definition stored_value (r : Z * list Z * list Z) : list Z :=
  let '(_, key, value) := r in
  utf8_decode (drop (Z.to_nat (byteLength key)) (payload key value)).

(** Key and value are well-formed strings. *)
Definition well_formed_record (r : Z * list Z * list Z) : Prop :=
  let '(_, key, value) := r in isWellFormed key /\ isWellFormed value.

(** The record that starts at [offset]: its header, then the key and the
    value sliced right behind that header.  These are the slices that
    [_initKeyDir] takes for the record at [offset]. *)
Definition record_at (buff : Buffer) (offset : Z)
  : Result (Z * list Z * list Z) :=
  '(timestamp, kSize, vSize) ← decodeHeader buff offset;
  let key :=
    toString buff (offset + HEADER_SIZE) (offset + HEADER_SIZE + kSize) in
  let value :=
    toString buff (offset + HEADER_SIZE + kSize)
      (offset + HEADER_SIZE + kSize + vSize) in
  mret (timestamp, key, value).

(** The buffer ends before the header at [offset] is complete, or before
    the key and value bytes that this header declares. *)
Definition record_truncated (buff : Buffer) (offset : Z) : bool :=
  if len buff <? offset + HEADER_SIZE then true
  else
    match decodeHeader buff offset with
    | Ok (_, kSize, vSize) =>
        len buff <? offset + HEADER_SIZE + kSize + vSize
    | Throw _ => true
    end.

(** A header that announces a one-byte key, with nothing behind it. *)
Definition header_without_payload : Buffer :=
  uint32le 0 ++ uint32le 1 ++ uint32le 0.

(** A record with key "a" and an empty value, placed at [offset] behind
    zero bytes. *)
Definition record_behind_zeros (offset : Z) : Buffer :=
  alloc offset ++ record_bytes (0, js "a", []).

(** A log: the rows of its records, one after the other. *)
Definition log_bytes (rs : list (Z * list Z * list Z)) : list byte :=
  flat_map record_bytes rs.

(** The value of the most recent record for [key] in a log, the records
    taken by increasing offset. *)
Fixpoint last_value (rs : list (Z * list Z * list Z)) (key : list Z)
  : option (list Z) :=
  match rs with
  | [] => None
  | (_, k, v) :: rs' =>
      match last_value rs' key with
      | Some v' => Some v'
      | None => if bool_decide (k = key) then Some v else None
      end
  end.

(** The most recent record for [key] has a non-empty value. *)
Definition live (rs : list (Z * list Z * list Z)) (key : list Z) : bool :=
  match last_value rs key with
  | Some v => negb (is_empty v)
  | None => false
  end.

(** What one iteration of the loop of [_initKeyDir] does to the index for
    a record whose row lies at [offset]: the key and the value it sees are
    the ones read back from the row. *)
Definition replay_record (keyDir : gmap (list Z) KeyEntry) (offset : Z)
    (r : Z * list Z * list Z) : gmap (list Z) KeyEntry :=
  let '(ts, _, _) := r in
  if is_empty (stored_value r) && has keyDir (stored_key r)
  then delete (stored_key r) keyDir
  else <[stored_key r := {| size := len (record_bytes r);
                            position := offset;
                            timestamp := ts |}]> keyDir.

(** The index after the loop has gone through the records [rs], the first
    of which lies at [offset]. *)
Fixpoint replay (rs : list (Z * list Z * list Z)) (offset : Z)
    (keyDir : gmap (list Z) KeyEntry) : gmap (list Z) KeyEntry :=
  match rs with
  | [] => keyDir
  | r :: rs' =>
      replay rs' (offset + len (record_bytes r)) (replay_record keyDir offset r)
  end.

(** The stores a program can hold: the one [DiskStorage] returns for some
    file, and the ones that calls of [set], under any behaviour of the file
    system, and cuts of the file from outside lead to.  ([get] and a failed
    call leave a store of this kind, too.) *)
Inductive reachable : Store -> Prop :=
| reachable_open (file : list byte) (st : Store) :
    DiskStorage file = Ok st -> reachable st
| reachable_set (disk : Disk) (ts : Z) (key value : list Z) (st : Store) :
    reachable st -> reachable (snd (set disk ts key value st))
| reachable_truncated (n : nat) (st : Store) :
    reachable st -> reachable (truncated n st).

(** The cursor is at the end of the file. *)
Definition aligned (st : Store) : Prop := _writePosition st = len (_file st).

(** The [size] bytes that [get] decodes for an entry: what the file holds
    from [position] on, followed by the zero bytes of the fresh buffer
    where the file has ended. *)
Definition read_entry (file : list byte) (entry : KeyEntry) : Buffer :=
  let data :=
    take (Z.to_nat (size entry)) (drop (Z.to_nat (position entry)) file) in
  data ++ replicate (Z.to_nat (size entry) - length data) x00.

(** Every entry of the index spans at least a header. *)
Definition entries_sized (keyDir : gmap (list Z) KeyEntry) : Prop :=
  forall key entry, keyDir !! key = Some entry -> HEADER_SIZE <= size entry.

(** Every entry of the index lies inside the log [rs] and covers the row
    of the most recent record for its key. *)
Definition entries_point_at_last (rs : list (Z * list Z * list Z))
    (keyDir : gmap (list Z) KeyEntry) : Prop :=
  forall key entry,
    keyDir !! key = Some entry ->
    exists ts v,
      last_value rs key = Some v
      /\ valid_record (ts, key, v)
      /\ 0 <= position entry
      /\ position entry + size entry <= len (log_bytes rs)
      /\ read_entry (log_bytes rs) entry = record_bytes (ts, key, v).

End Log.

(** ** memory-store.ts *)

Module MemoryStore.

(** One [MemoryStorage] instance is its map [keyDir].  Each of the three
    functions resolves its promise inside the executor, so a call is the
    map operation itself. *)

(** [MemoryStorage()]: a new, empty map. *)
Definition MemoryStorage : gmap (list Z) (list Z) := ∅.

(** [set(key, value)] *)
Definition set (key value : list Z) (keyDir : gmap (list Z) (list Z))
  : gmap (list Z) (list Z) :=
  <[key := value]> keyDir.

(** [get(key)]; [None] is [undefined]. *)
Definition get (key : list Z) (keyDir : gmap (list Z) (list Z))
  : option (list Z) :=
  keyDir !! key.

(** [close()]: [keyDir.clear()]. *)
Definition close (keyDir : gmap (list Z) (list Z))
  : gmap (list Z) (list Z) := ∅.

End MemoryStore.

(** ** Sessions *)

Module Session.
Import Buffer Format DiskStore Log.

(** The store after the calls [set(key, value)] for the records [rs], in
    their order, each at the clock reading of its record and with a file
    system that works. *)
Definition set_all (rs : list (Z * list Z * list Z)) (st : Store) : Store :=
  fold_left
    (fun st r => let '(ts, key, value) := r in snd (set DiskOk ts key value st))
    rs st.

(** The same calls on a memory store. *)
Definition memory_set_all (rs : list (Z * list Z * list Z))
    (keyDir : gmap (list Z) (list Z)) : gmap (list Z) (list Z) :=
  fold_left
    (fun keyDir r =>
       let '(_, key, value) := r in MemoryStore.set key value keyDir)
    rs keyDir.

(** The store that [DiskStorage] returns for a file that was empty or
    absent. *)
Definition fresh : Store := mkStore [] ∅ 0.

(** Every entry of the index starts inside a file of [n] bytes and spans
    at least a header. *)
Definition entries_inside (n : Z) (keyDir : gmap (list Z) KeyEntry) : Prop :=
  forall key entry,
    keyDir !! key = Some entry ->
    0 <= position entry < n /\ HEADER_SIZE <= size entry.

End Session.

Import Buffer Format DiskStore Log Session.

(** * Properties of the record codec *)

Section Bytes.

Lemma Z_of_byte_of_Z (z : Z) : Z_of_byte (byte_of_Z z) = z mod 256.
Proof.
  unfold Z_of_byte, byte_of_Z.
  change 255 with (Z.ones 8). rewrite Z.land_ones by lia.
  change (2 ^ 8) with 256.
  pose proof (Z.mod_pos_bound z 256 ltac:(lia)) as Hb.
  destruct (Byte.of_N (Z.to_N (z mod 256))) as [b|] eqn:E.
  - apply Byte.to_of_N in E. rewrite E. lia.
  - apply Byte.of_N_None_iff in E. lia.
Qed.

Lemma Z_of_byte_range (b : byte) : 0 <= Z_of_byte b < 256.
Proof.
  unfold Z_of_byte. pose proof (Byte.to_N_bounded b). lia.
Qed.

Lemma uint32le_value (v : Z) :
  0 <= v <= 4294967295 ->
  v mod 256 + (Z.shiftr v 8) mod 256 * 2 ^ 8
    + (Z.shiftr v 16) mod 256 * 2 ^ 16 + (Z.shiftr v 24) mod 256 * 2 ^ 24 = v.
Proof.
  intros Hv. rewrite !Z.shiftr_div_pow2 by lia.
  change (2 ^ 8) with 256. change (2 ^ 16) with 65536.
  change (2 ^ 24) with 16777216.
  Z.to_euclidean_division_equations. lia.
Qed.

Lemma length_uint32le (v : Z) : length (uint32le v) = 4%nat.
Proof. reflexivity. Qed.

Lemma len_app (l k : list byte) : len (l ++ k) = len l + len k.
Proof. unfold len. rewrite length_app. lia. Qed.

Lemma len_nonneg (l : list byte) : 0 <= len l.
Proof. unfold len. lia. Qed.

Lemma len_uint32le (v : Z) : len (uint32le v) = 4.
Proof. reflexivity. Qed.

Lemma byteLength_nonneg (s : list Z) : 0 <= byteLength s.
Proof. unfold byteLength, len. lia. Qed.

End Bytes.

Ltac div_lia := Z.to_euclidean_division_equations; lia.

(** Closed equations between results of the functions are settled by
    evaluating both sides. *)
Ltac evaluate := vm_compute; reflexivity.

Ltac decide_if :=
  match goal with
  | |- context [if ?b then _ else _] =>
      first [ replace b with true by (symmetry; div_lia)
            | replace b with false by (symmetry; div_lia) ]
  end.

Section Transcoding.

Lemma Z_of_byte_of_Z_small (z : Z) :
  0 <= z <= 255 -> Z_of_byte (byte_of_Z z) = z.
Proof. intros H. rewrite Z_of_byte_of_Z. apply Z.mod_small. lia. Qed.

(** Induction on a string, two code units at a time where needed. *)
Lemma units_ind (P : list Z -> Prop) :
  P [] ->
  (forall u, P [u]) ->
  (forall u l s, P s -> P (l :: s) -> P (u :: l :: s)) ->
  forall s, P s.
Proof.
  intros H0 H1 H2.
  assert (H : forall s, P s /\ forall u, P (u :: s)).
  { induction s as [|l s [IH1 IH2]].
    - split; [exact H0|exact H1].
    - split; [apply IH2|]. intros u. apply H2; [exact IH1|apply IH2]. }
  intros s. apply H.
Qed.

Lemma utf8_decode_cp1 (cp : Z) (r : list byte) :
  0 <= cp < 128 ->
  utf8_decode (utf8_cp cp ++ r) = cp :: utf8_decode r.
Proof.
  intros H. unfold utf8_cp. repeat decide_if.
  cbn [app utf8_decode]. rewrite !Z_of_byte_of_Z_small by lia.
  cbv zeta. repeat decide_if. reflexivity.
Qed.

Lemma utf8_decode_cp2 (cp : Z) (r : list byte) :
  128 <= cp < 2048 ->
  utf8_decode (utf8_cp cp ++ r) = cp :: utf8_decode r.
Proof.
  intros H. unfold utf8_cp. repeat decide_if.
  cbn [app utf8_decode]. rewrite !Z_of_byte_of_Z_small by div_lia.
  cbv zeta. unfold is_cont. repeat decide_if. f_equal. div_lia.
Qed.

Lemma utf8_decode_cp3 (cp : Z) (r : list byte) :
  2048 <= cp < 65536 -> is_high cp = false -> is_low cp = false ->
  utf8_decode (utf8_cp cp ++ r) = cp :: utf8_decode r.
Proof.
  intros H Hh Hl. unfold is_high, is_low in *. unfold utf8_cp.
  repeat decide_if.
  cbn [app utf8_decode]. rewrite !Z_of_byte_of_Z_small by div_lia.
  cbv zeta. unfold is_cont.
  destruct (224 + cp / 4096 =? 224) eqn:E1;
    destruct (224 + cp / 4096 =? 237) eqn:E2;
    repeat decide_if; f_equal; div_lia.
Qed.

Lemma utf8_decode_cp4 (cp : Z) (r : list byte) :
  65536 <= cp < 1114112 ->
  utf8_decode (utf8_cp cp ++ r) = units_of_cp cp ++ utf8_decode r.
Proof.
  intros H. unfold utf8_cp. repeat decide_if.
  cbn [app utf8_decode]. rewrite !Z_of_byte_of_Z_small by div_lia.
  cbv zeta. unfold is_cont.
  destruct (240 + cp / 262144 =? 240) eqn:E1;
    destruct (240 + cp / 262144 =? 244) eqn:E2;
    repeat decide_if; f_equal; f_equal; div_lia.
Qed.

Lemma utf8_decode_replacement (r : list byte) :
  utf8_decode (utf8_cp REPLACEMENT ++ r) = REPLACEMENT :: utf8_decode r.
Proof.
  apply utf8_decode_cp3; [unfold REPLACEMENT; lia|reflexivity|reflexivity].
Qed.

Lemma units_of_pair (h l : Z) :
  is_high h = true -> is_low l = true ->
  65536 <= pair_cp h l < 1114112 /\ units_of_cp (pair_cp h l) = [h; l].
Proof.
  unfold is_high, is_low, pair_cp, units_of_cp. intros Hh Hl.
  split; [lia|]. decide_if. f_equal; [|f_equal]; div_lia.
Qed.

Lemma utf8_encode_cons (u : Z) (s : list Z) :
  utf8_encode (u :: s)
  = if is_high u then
      match s with
      | l :: s'' =>
          if is_low l then utf8_cp (pair_cp u l) ++ utf8_encode s''
          else utf8_cp REPLACEMENT ++ utf8_encode s
      | [] => utf8_cp REPLACEMENT
      end
    else if is_low u || negb (is_unit u) then
      utf8_cp REPLACEMENT ++ utf8_encode s
    else utf8_cp u ++ utf8_encode s.
Proof. reflexivity. Qed.

Lemma toWellFormed_cons (u : Z) (s : list Z) :
  toWellFormed (u :: s)
  = if is_high u then
      match s with
      | l :: s'' =>
          if is_low l then u :: l :: toWellFormed s''
          else REPLACEMENT :: toWellFormed s
      | [] => [REPLACEMENT]
      end
    else if is_low u || negb (is_unit u) then REPLACEMENT :: toWellFormed s
    else u :: toWellFormed s.
Proof. reflexivity. Qed.

(** The bytes of one code unit that is neither a surrogate nor out of
    range decode to that unit. *)
Lemma utf8_decode_unit (u : Z) (r : list byte) :
  is_high u = false -> is_low u || negb (is_unit u) = false ->
  utf8_decode (utf8_cp u ++ r) = u :: utf8_decode r.
Proof.
  intros Hh Hl. unfold is_high, is_low, is_unit in *.
  destruct (Z_lt_ge_dec u 128); [apply utf8_decode_cp1; lia|].
  destruct (Z_lt_ge_dec u 2048); [apply utf8_decode_cp2; lia|].
  apply utf8_decode_cp3; unfold is_high, is_low; lia.
Qed.

(** Decoding the bytes that encoding wrote gives the string made
    well-formed, whatever bytes follow. *)
Lemma utf8_decode_encode (s : list Z) :
  forall r : list byte,
    utf8_decode (utf8_encode s ++ r) = toWellFormed s ++ utf8_decode r.
Proof.
  induction s as [|u|u l s IH1 IH2] using units_ind; intros r.
  - reflexivity.
  - rewrite utf8_encode_cons, toWellFormed_cons.
    destruct (is_high u) eqn:Hh; [apply utf8_decode_replacement|].
    destruct (is_low u || negb (is_unit u)) eqn:Hl.
    + rewrite app_nil_r. apply utf8_decode_replacement.
    + rewrite app_nil_r. now apply utf8_decode_unit.
  - rewrite (utf8_encode_cons u), (toWellFormed_cons u). cbv iota.
    destruct (is_high u) eqn:Hh.
    + destruct (is_low l) eqn:Hl.
      * destruct (units_of_pair u l Hh Hl) as [Hr Hu].
        rewrite <- app_assoc, utf8_decode_cp4 by exact Hr.
        rewrite Hu, IH1. reflexivity.
      * rewrite <- app_assoc, utf8_decode_replacement.
        cbn [app]. f_equal. apply IH2.
    + destruct (is_low u || negb (is_unit u)) eqn:Hl.
      * rewrite <- app_assoc, utf8_decode_replacement.
        cbn [app]. f_equal. apply IH2.
      * rewrite <- app_assoc, utf8_decode_unit by assumption.
        cbn [app]. f_equal. apply IH2.
Qed.

(** Round trip of the transcoding: a well-formed string is read back from
    its bytes. *)
Lemma utf8_decode_encode_wf (s : list Z) :
  isWellFormed s -> utf8_decode (utf8_encode s) = s.
Proof.
  intros Hw. pose proof (utf8_decode_encode s []) as H.
  rewrite !app_nil_r in H. now rewrite H.
Qed.

Lemma length_utf8_cp (cp : Z) : (1 <= length (utf8_cp cp) <= 4)%nat.
Proof.
  unfold utf8_cp.
  destruct (cp <? 128); [cbn; lia|].
  destruct (cp <? 2048); [cbn; lia|].
  destruct (cp <? 65536); cbn; lia.
Qed.

Lemma length_utf8_replacement : length (utf8_cp REPLACEMENT) = 3%nat.
Proof. reflexivity. Qed.

(** Concatenation never makes the bytes longer: the only difference is a
    leading surrogate at the end of [k] that pairs with a trailing one at
    the start of [v], four bytes instead of three and three. *)
Lemma utf8_encode_app_length (k v : list Z) :
  (length (utf8_encode (k ++ v))
   <= length (utf8_encode k) + length (utf8_encode v))%nat.
Proof.
  induction k as [|u|u l k IH1 IH2] using units_ind.
  - cbn [app utf8_encode length]. lia.
  - cbn [app]. destruct v as [|l v]; [cbn [utf8_encode length]; lia|].
    rewrite (utf8_encode_cons u (l :: v)), (utf8_encode_cons u []). cbv iota.
    destruct (is_high u) eqn:Hh.
    + destruct (is_low l) eqn:Hl.
      * rewrite (utf8_encode_cons l v).
        assert (is_high l = false) as -> by (unfold is_high, is_low in *; lia).
        rewrite Hl. cbn [orb]. rewrite !length_app, length_utf8_replacement.
        pose proof (length_utf8_cp (pair_cp u l)). lia.
      * rewrite length_app. lia.
    + destruct (is_low u || negb (is_unit u));
        rewrite !length_app; change (utf8_encode []) with (@nil byte);
        cbn [length]; lia.
  - cbn [app]. rewrite (utf8_encode_cons u (l :: k ++ v)),
      (utf8_encode_cons u (l :: k)). cbv iota.
    cbn [app] in IH2.
    destruct (is_high u).
    + destruct (is_low l); rewrite !length_app; lia.
    + destruct (is_low u || negb (is_unit u)); rewrite !length_app; lia.
Qed.

(** Behind a well-formed string the bytes of a concatenation are the
    bytes of the two parts. *)
Lemma utf8_encode_app_wf (k v : list Z) :
  isWellFormed k ->
  utf8_encode (k ++ v) = utf8_encode k ++ utf8_encode v.
Proof.
  unfold isWellFormed.
  induction k as [|u|u l k IH1 IH2] using units_ind.
  - reflexivity.
  - rewrite toWellFormed_cons. cbn [app].
    rewrite (utf8_encode_cons u v), (utf8_encode_cons u []).
    destruct (is_high u) eqn:Hh.
    + intros [= Hu]. subst u. discriminate Hh.
    + intros _. destruct (is_low u || negb (is_unit u));
        now rewrite app_nil_r.
  - rewrite (toWellFormed_cons u). cbv iota. cbn [app].
    rewrite (utf8_encode_cons u (l :: k ++ v)), (utf8_encode_cons u (l :: k)).
    cbv iota. cbn [app] in IH2.
    destruct (is_high u) eqn:Hh.
    + destruct (is_low l) eqn:Hl.
      * intros [= Hk]. rewrite (IH1 Hk). now rewrite app_assoc.
      * intros [= Hu]. subst u. discriminate Hh.
    + destruct (is_low u || negb (is_unit u)) eqn:Hl.
      * intros [= Hu Hk]. rewrite (IH2 Hk). now rewrite app_assoc.
      * intros [= Hk]. rewrite (IH2 Hk). now rewrite app_assoc.
Qed.

Lemma utf8_write_cons (u : Z) (s : list Z) (n : nat) :
  utf8_write (u :: s) n
  = if is_high u then
      match s with
      | l :: s'' =>
          if is_low l then fit_char n (utf8_cp (pair_cp u l)) (utf8_write s'')
          else fit_char n (utf8_cp REPLACEMENT) (utf8_write s)
      | [] => fit_char n (utf8_cp REPLACEMENT) (fun _ => [])
      end
    else if is_low u || negb (is_unit u) then
      fit_char n (utf8_cp REPLACEMENT) (utf8_write s)
    else fit_char n (utf8_cp u) (utf8_write s).
Proof. reflexivity. Qed.

Lemma fit_char_all (n : nat) (bytes tail : list byte)
    (rest : nat -> list byte) :
  (length (bytes ++ tail) <= n)%nat ->
  rest (n - length bytes)%nat = tail ->
  fit_char n bytes rest = bytes ++ tail.
Proof.
  intros Hn Hr. unfold fit_char. rewrite length_app in Hn.
  destruct (Nat.leb_spec (length bytes) n) as [_|Hlt]; [|lia].
  now rewrite Hr.
Qed.

(** A string whose bytes fit in the room left is written whole. *)
Lemma utf8_write_all (s : list Z) :
  forall n : nat,
    (length (utf8_encode s) <= n)%nat -> utf8_write s n = utf8_encode s.
Proof.
  induction s as [|u|u l s IH1 IH2] using units_ind; intros n.
  - reflexivity.
  - rewrite utf8_encode_cons, utf8_write_cons.
    destruct (is_high u).
    + intros Hn. rewrite <- (app_nil_r (utf8_cp REPLACEMENT)) at 2.
      apply fit_char_all; [now rewrite app_nil_r|reflexivity].
    + destruct (is_low u || negb (is_unit u)); intros Hn;
        apply fit_char_all; (exact Hn || reflexivity).
  - rewrite (utf8_encode_cons u), (utf8_write_cons u). cbv iota.
    destruct (is_high u).
    + destruct (is_low l); intros Hn;
        (apply fit_char_all; [exact Hn|]);
        [apply IH1|apply IH2]; rewrite length_app in Hn; lia.
    + destruct (is_low u || negb (is_unit u)); intros Hn;
        (apply fit_char_all; [exact Hn|]);
        apply IH2; rewrite length_app in Hn; lia.
Qed.

(** Only the empty byte sequence decodes to the empty string. *)
Lemma utf8_decode_nil (bs : list byte) : utf8_decode bs = [] -> bs = [].
Proof.
  destruct bs as [|b0 r0]; [reflexivity|]. cbn [utf8_decode]. cbv zeta.
  unfold units_of_cp.
  repeat match goal with
         | |- context [if ?b then _ else _] => destruct b
         | |- context [match ?l with [] => _ | _ :: _ => _ end] => destruct l
         end; cbn [app]; discriminate.
Qed.

Lemma utf8_encode_nil (s : list Z) : utf8_encode s = [] -> s = [].
Proof.
  destruct s as [|u s]; [reflexivity|]. rewrite utf8_encode_cons.
  intros H. apply (f_equal (@length byte)) in H. exfalso.
  pose proof (length_utf8_cp REPLACEMENT). pose proof (length_utf8_cp u).
  destruct (is_high u).
  - destruct s as [|l s]; [cbn in H; lia|].
    pose proof (length_utf8_cp (pair_cp u l)).
    destruct (is_low l); rewrite length_app in H; cbn [length] in H; lia.
  - destruct (is_low u || negb (is_unit u)); rewrite length_app in H;
      cbn [length] in H; lia.
Qed.

Lemma byteLength_nil (s : list Z) : byteLength s = 0 -> s = [].
Proof.
  unfold byteLength, len. intros H. apply utf8_encode_nil.
  destruct (utf8_encode s); [reflexivity|cbn in H; lia].
Qed.

End Transcoding.

Section WellFormed.

Lemma toWellFormed_scalar (x : Z) (s : list Z) :
  0 <= x <= 65535 -> x < 55296 \/ 57343 < x ->
  toWellFormed (x :: s) = x :: toWellFormed s.
Proof.
  intros H1 H2. rewrite toWellFormed_cons.
  replace (is_high x) with false by (unfold is_high; lia).
  replace (is_low x || negb (is_unit x)) with false
    by (unfold is_low, is_unit; lia).
  reflexivity.
Qed.

Lemma toWellFormed_units_of_cp (cp : Z) (s : list Z) :
  65536 <= cp < 1114112 ->
  toWellFormed (units_of_cp cp ++ s) = units_of_cp cp ++ toWellFormed s.
Proof.
  intros H. unfold units_of_cp.
  replace (cp <? 65536) with false by lia. cbn [app].
  rewrite toWellFormed_cons.
  replace (is_high (55296 + (cp - 65536) / 1024)) with true
    by (unfold is_high; symmetry; div_lia).
  replace (is_low (56320 + (cp - 65536) mod 1024)) with true
    by (unfold is_low; symmetry; div_lia).
  reflexivity.
Qed.

Lemma utf8_decode_well_formed_len (n : nat) :
  forall bs : list byte,
    (length bs <= n)%nat -> toWellFormed (utf8_decode bs) = utf8_decode bs.
Proof.
  induction n as [|n IH]; intros bs Hn.
  - destruct bs; [reflexivity|cbn in Hn; lia].
  - destruct bs as [|b0 r0]; [reflexivity|].
    cbn [length] in Hn.
    assert (IH0 : toWellFormed (utf8_decode r0) = utf8_decode r0)
      by (apply IH; lia).
    pose proof (Z_of_byte_range b0) as R0.
    cbn [utf8_decode]. cbv zeta. unfold is_cont, REPLACEMENT.
    destruct (Z_of_byte b0 =? 224) eqn:Ea;
      destruct (Z_of_byte b0 =? 237) eqn:Eb;
      destruct (Z_of_byte b0 =? 240) eqn:Ec;
      destruct (Z_of_byte b0 =? 244) eqn:Ed; try lia.
    all: repeat match goal with
      | |- context [match ?l with [] => _ | _ :: _ => _ end] =>
          destruct l as [|? ?]
      | |- context [if ?b then _ else _] => destruct b eqn:?
      end.
    all: try reflexivity.
    all: repeat match goal with
      | b : byte |- _ =>
          lazymatch goal with
          | _ : 0 <= Z_of_byte b < 256 |- _ => fail
          | _ => pose proof (Z_of_byte_range b)
          end
      end.
    all: cbn [length] in Hn.
    all: first
      [ rewrite toWellFormed_scalar by lia; f_equal;
        first [exact IH0|apply IH; cbn [length]; lia]
      | rewrite toWellFormed_units_of_cp by lia; f_equal;
        apply IH; cbn [length]; lia ].
Qed.

Lemma utf8_decode_well_formed (bs : list byte) :
  isWellFormed (utf8_decode bs).
Proof. exact (utf8_decode_well_formed_len (length bs) bs (le_n _)). Qed.

End WellFormed.

Section Boundary.

Lemma length_utf8_pair (h l : Z) :
  is_high h = true -> is_low l = true ->
  length (utf8_cp (pair_cp h l)) = 4%nat.
Proof.
  intros Hh Hl. destruct (units_of_pair h l Hh Hl) as [Hr _].
  unfold utf8_cp. repeat decide_if. reflexivity.
Qed.

(** The first three bytes of a four-byte sequence, with nothing behind
    them, decode to one U+FFFD. *)
Lemma utf8_decode_cut_pair (h l : Z) :
  is_high h = true -> is_low l = true ->
  utf8_decode (take 3 (utf8_cp (pair_cp h l))) = [REPLACEMENT].
Proof.
  intros Hh Hl. destruct (units_of_pair h l Hh Hl) as [Hr _].
  set (cp := pair_cp h l) in *. clearbody cp.
  unfold utf8_cp. repeat decide_if.
  cbn [take utf8_decode]. rewrite !Z_of_byte_of_Z_small by div_lia.
  cbv zeta. unfold is_cont.
  destruct (240 + cp / 262144 =? 240) eqn:E1;
    destruct (240 + cp / 262144 =? 244) eqn:E2;
    try (exfalso; lia); repeat decide_if; reflexivity.
Qed.

(** The bytes of a concatenation, cut where the bytes of the first string
    end, decode to the first string made well-formed: where the cut
    falls inside the four bytes of a surrogate pair, the three bytes
    before it decode to the same U+FFFD as the lone leading surrogate. *)
Lemma utf8_decode_take_encode (key : list Z) :
  forall (value : list Z) (pad : list byte),
    utf8_decode
      (take (length (utf8_encode key)) (utf8_encode (key ++ value) ++ pad))
    = toWellFormed key.
Proof.
  induction key as [|u|u l key IH1 IH2] using units_ind; intros value pad.
  - reflexivity.
  - cbn [app]. rewrite (utf8_encode_cons u value), (utf8_encode_cons u []),
      toWellFormed_cons.
    destruct (is_high u) eqn:Hh.
    + destruct value as [|l v].
      * rewrite take_app_length. reflexivity.
      * destruct (is_low l) eqn:Hl.
        -- rewrite <- app_assoc, take_app_le
             by (rewrite length_utf8_pair by assumption; cbn; lia).
           now apply utf8_decode_cut_pair.
        -- rewrite <- app_assoc, take_app_length. reflexivity.
    + destruct (is_low u || negb (is_unit u)) eqn:Hl.
      * rewrite app_nil_r, <- app_assoc, take_app_length. reflexivity.
      * rewrite app_nil_r, <- app_assoc, take_app_length.
        pose proof (utf8_decode_unit u [] Hh Hl) as H.
        now rewrite app_nil_r in H.
  - cbn [app]. rewrite (utf8_encode_cons u (l :: key ++ value)),
      (utf8_encode_cons u (l :: key)), (toWellFormed_cons u). cbv iota.
    specialize (IH2 value pad). cbn [app] in IH2.
    destruct (is_high u) eqn:Hh.
    + destruct (is_low l) eqn:Hl.
      * destruct (units_of_pair u l Hh Hl) as [Hr Hu].
        rewrite length_app, <- app_assoc, take_app_add.
        rewrite utf8_decode_cp4 by exact Hr. rewrite Hu, IH1. reflexivity.
      * rewrite length_app, <- app_assoc, take_app_add.
        rewrite utf8_decode_replacement, IH2. reflexivity.
    + destruct (is_low u || negb (is_unit u)) eqn:Hl.
      * rewrite length_app, <- app_assoc, take_app_add.
        rewrite utf8_decode_replacement, IH2. reflexivity.
      * rewrite length_app, <- app_assoc, take_app_add.
        rewrite utf8_decode_unit by assumption. now rewrite IH2.
Qed.

End Boundary.

Section Codec.

(** Reading where [uint32le v] was stored gives [v] back. *)
Lemma readUInt32LE_uint32le (pre post : list byte) (v : Z) :
  0 <= v <= 4294967295 ->
  readUInt32LE (pre ++ uint32le v ++ post) (len pre) = Ok v.
Proof.
  intros Hv. unfold readUInt32LE, out_of_bounds.
  rewrite !len_app, len_uint32le.
  pose proof (len_nonneg pre). pose proof (len_nonneg post).
  destruct (len pre <? 0) eqn:E1; [lia|].
  destruct (len pre + (4 + len post) <=? len pre + 3) eqn:E2; [lia|].
  simpl orb. cbv iota.
  unfold len at 1. rewrite Nat2Z.id, drop_app_length.
  cbn [uint32le app]. rewrite !Z_of_byte_of_Z.
  f_equal. now apply uint32le_value.
Qed.

(** What a read returns is an unsigned 32-bit number. *)
Lemma readUInt32LE_range (buf : Buffer) (offset v : Z) :
  readUInt32LE buf offset = Ok v -> 0 <= v <= 4294967295.
Proof.
  unfold readUInt32LE. destruct (out_of_bounds buf offset); [discriminate|].
  destruct (drop (Z.to_nat offset) buf) as [|b0 [|b1 [|b2 [|b3 l]]]];
    try discriminate.
  intros [= <-].
  pose proof (Z_of_byte_range b0). pose proof (Z_of_byte_range b1).
  pose proof (Z_of_byte_range b2). pose proof (Z_of_byte_range b3). lia.
Qed.

(** A read throws exactly when its four bytes are not all in the
    buffer. *)
Lemma readUInt32LE_Throw (buf : Buffer) (offset : Z) :
  offset < 0 \/ len buf < offset + 4 ->
  readUInt32LE buf offset = Throw (boundsError buf).
Proof.
  intros H. unfold readUInt32LE, out_of_bounds.
  destruct (offset <? 0) eqn:E1; [reflexivity|].
  destruct (len buf <=? offset + 3) eqn:E2; [reflexivity|]. lia.
Qed.

Lemma readUInt32LE_Ok (buf : Buffer) (offset : Z) :
  0 <= offset -> offset + 4 <= len buf ->
  exists v, readUInt32LE buf offset = Ok v.
Proof.
  intros H0 H1. unfold readUInt32LE, out_of_bounds.
  destruct (offset <? 0) eqn:E1; [lia|].
  destruct (len buf <=? offset + 3) eqn:E2; [lia|]. simpl.
  assert (Hl : (4 <= length (drop (Z.to_nat offset) buf))%nat).
  { rewrite length_drop. unfold len in *. lia. }
  destruct (drop (Z.to_nat offset) buf) as [|b0 [|b1 [|b2 [|b3 l]]]];
    simpl in Hl; try lia.
  eauto.
Qed.

(** The slice that [toString] decodes, with the clamping done by [take]
    and [drop]. *)
Lemma toString_slice (buf : Buffer) (start end_ : Z) :
  0 <= start ->
  toString buf start end_
  = utf8_decode
      (take (Z.to_nat (end_ - start)) (drop (Z.to_nat start) buf)).
Proof.
  intros Hs. unfold toString. rewrite Z.max_r by lia.
  destruct (len buf <=? start) eqn:E1.
  - rewrite drop_ge by (unfold len in *; lia).
    now rewrite take_nil.
  - destruct (Z.min end_ (len buf) <=? start) eqn:E2.
    + replace (Z.to_nat (end_ - start)) with 0%nat by lia. reflexivity.
    + f_equal. destruct (Z.le_ge_cases end_ (len buf)).
      * now rewrite Z.min_l by lia.
      * rewrite Z.min_r by lia.
        rewrite !take_ge; [reflexivity| |];
          rewrite length_drop; unfold len in *; lia.
Qed.

Lemma toString_app_slice (pre mid post : list byte) :
  toString (pre ++ mid ++ post) (len pre) (len pre + len mid)
  = utf8_decode mid.
Proof.
  rewrite toString_slice by apply len_nonneg. f_equal.
  unfold len. rewrite Nat2Z.id, drop_app_length.
  replace (Z.to_nat (_ + _ - _)) with (length mid) by lia.
  apply take_app_length.
Qed.

End Codec.

Section Encoding.

Lemma store_app (pre mid post bytes : list byte) :
  length mid = length bytes ->
  store (pre ++ mid ++ post) (length pre) bytes = pre ++ bytes ++ post.
Proof.
  intros Hl. unfold store.
  rewrite take_app_length. f_equal. f_equal.
  rewrite <- Hl, app_assoc, <- length_app. apply drop_app_length.
Qed.

Lemma writeUInt32LE_app (pre mid post : list byte) (v : Z) :
  0 <= v <= 4294967295 -> length mid = 4%nat ->
  writeUInt32LE (pre ++ mid ++ post) v (len pre)
  = Ok (pre ++ uint32le v ++ post).
Proof.
  intros Hv Hm. unfold writeUInt32LE, out_of_bounds.
  destruct (v >? 4294967295) eqn:E1; [lia|].
  destruct (v <? 0) eqn:E2; [lia|]. simpl orb. cbv iota.
  rewrite !len_app. pose proof (len_nonneg pre). pose proof (len_nonneg post).
  assert (len mid = 4) by (unfold len; lia).
  destruct (len pre <? 0) eqn:E3; [lia|].
  destruct (len pre + (len mid + len post) <=? len pre + 3) eqn:E4; [lia|].
  simpl orb. cbv iota. unfold len at 1. rewrite Nat2Z.id.
  now rewrite store_app.
Qed.

Lemma writeUInt32LE_value_Throw (buf : Buffer) (v offset : Z) :
  v < 0 \/ 4294967295 < v ->
  writeUInt32LE buf v offset = Throw ERR_OUT_OF_RANGE_value.
Proof.
  intros H. unfold writeUInt32LE.
  destruct (v >? 4294967295) eqn:E1; [reflexivity|].
  destruct (v <? 0) eqn:E2; [reflexivity|]. lia.
Qed.

(** A buffer of at least twelve bytes, cut at the three header fields. *)
Lemma header_split (buff : Buffer) :
  12 <= len buff ->
  exists h0 h1 h2 : list byte,
    buff = h0 ++ h1 ++ h2 ++ drop 12 buff
    /\ length h0 = 4%nat /\ length h1 = 4%nat /\ length h2 = 4%nat.
Proof.
  intros H. unfold len in H.
  exists (take 4 buff), (take 4 (drop 4 buff)), (take 4 (drop 8 buff)).
  repeat split.
  - rewrite <- (take_drop 4 buff) at 1. f_equal.
    rewrite <- (take_drop 4 (drop 4 buff)) at 1. f_equal.
    rewrite drop_drop. simpl.
    rewrite <- (take_drop 4 (drop 8 buff)) at 1. f_equal.
    now rewrite drop_drop.
  - rewrite length_take. lia.
  - rewrite length_take, length_drop. lia.
  - rewrite length_take, length_drop. lia.
Qed.

(** With the three fields in range, [encodeHeader] overwrites the first
    twelve bytes of the buffer with the three fields. *)
Lemma encodeHeader_Ok (buff : Buffer) (ts ks vs : Z) :
  12 <= len buff -> in_uint32 ts -> in_uint32 ks -> in_uint32 vs ->
  encodeHeader buff ts ks vs
  = Ok (uint32le ts ++ uint32le ks ++ uint32le vs ++ drop 12 buff).
Proof.
  intros Hl Ht Hk Hv.
  destruct (header_split buff Hl) as (h0 & h1 & h2 & Hb & L0 & L1 & L2).
  set (rest := drop 12 buff) in *. clearbody rest. subst buff.
  unfold encodeHeader.
  pose proof (writeUInt32LE_app [] h0 (h1 ++ h2 ++ rest) ts Ht L0) as E0.
  change (len []) with 0 in E0. cbn [app] in E0. rewrite E0. clear E0.
  cbn [mbind Result_bind].
  change 4 with (len (uint32le ts)).
  rewrite (writeUInt32LE_app (uint32le ts) h1 _ ks Hk L1).
  cbn [mbind Result_bind].
  change 8 with (len (uint32le ts ++ uint32le ks)).
  rewrite (app_assoc (uint32le ts) (uint32le ks)).
  rewrite (writeUInt32LE_app _ h2 rest vs Hv L2).
  now rewrite <- app_assoc.
Qed.

(** The header is read back from where it was stored. *)
Lemma decodeHeader_app (pre post : list byte) (ts ks vs : Z) :
  in_uint32 ts -> in_uint32 ks -> in_uint32 vs ->
  decodeHeader (pre ++ uint32le ts ++ uint32le ks ++ uint32le vs ++ post)
    (len pre)
  = Ok (ts, ks, vs).
Proof.
  intros Ht Hk Hv. unfold decodeHeader.
  rewrite (readUInt32LE_uint32le pre _ ts Ht). cbn [mbind Result_bind].
  replace (len pre + 4) with (len (pre ++ uint32le ts))
    by (rewrite len_app; reflexivity).
  rewrite (app_assoc pre (uint32le ts)).
  rewrite (readUInt32LE_uint32le _ _ ks Hk). cbn [mbind Result_bind].
  replace (len pre + 8) with (len ((pre ++ uint32le ts) ++ uint32le ks))
    by (rewrite !len_app; change (len (uint32le _)) with 4; lia).
  rewrite (app_assoc _ (uint32le ks)).
  rewrite (readUInt32LE_uint32le _ _ vs Hv). reflexivity.
Qed.

End Encoding.

Section RoundTrip.

Lemma alloc_length (n : Z) : length (alloc n) = Z.to_nat n.
Proof. unfold alloc. apply length_replicate. Qed.

Lemma length_payload (key value : list Z) :
  length (payload key value) = Z.to_nat (byteLength key + byteLength value).
Proof.
  unfold payload. rewrite length_app, length_replicate.
  pose proof (utf8_encode_app_length key value).
  unfold byteLength, len. lia.
Qed.

Lemma len_payload (key value : list Z) :
  len (payload key value) = byteLength key + byteLength value.
Proof.
  unfold len at 1. rewrite length_payload.
  pose proof (byteLength_nonneg key). pose proof (byteLength_nonneg value).
  lia.
Qed.

(** [encodeKV] on a valid record returns exactly the row of the record. *)
Lemma encodeKV_record_bytes (ts : Z) (key value : list Z) :
  valid_record (ts, key, value) ->
  encodeKV ts key value = Ok (record_bytes (ts, key, value)).
Proof.
  intros (Ht & Hk & Hv). unfold encodeKV, record_bytes.
  pose proof (byteLength_nonneg key). pose proof (byteLength_nonneg value).
  rewrite encodeHeader_Ok; try assumption.
  2:{ unfold len, HEADER_SIZE. rewrite alloc_length. lia. }
  cbn [mbind Result_bind]. unfold write.
  set (hdr := uint32le ts ++ uint32le (byteLength key)
                ++ uint32le (byteLength value)).
  assert (Hh : length hdr = 12%nat) by reflexivity.
  assert (Hrest : drop 12 (alloc (HEADER_SIZE + byteLength key
                                    + byteLength value))
                  = replicate (Z.to_nat (byteLength key + byteLength value))
                      x00).
  { unfold alloc, HEADER_SIZE. rewrite drop_replicate. f_equal. lia. }
  rewrite Hrest.
  set (n := Z.to_nat (byteLength key + byteLength value)).
  replace (uint32le ts ++ uint32le (byteLength key)
             ++ uint32le (byteLength value) ++ replicate n x00)
    with (hdr ++ replicate n x00)
    by (unfold hdr; now rewrite <- !app_assoc).
  unfold HEADER_SIZE.
  destruct (12 <? 0) eqn:E1; [lia|].
  destruct (len (hdr ++ replicate n x00) <? 12) eqn:E2.
  { rewrite len_app in E2. pose proof (len_nonneg (replicate n x00)).
    unfold len in E2 at 1. lia. }
  simpl orb. cbv iota. f_equal.
  change (Z.to_nat 12) with (length hdr).
  pose proof (utf8_encode_app_length key value) as Hfit.
  assert (Hn : (length (utf8_encode (key ++ value)) <= n)%nat)
    by (unfold n, byteLength, len; lia).
  rewrite utf8_write_all by (rewrite length_app, length_replicate; lia).
  unfold store. rewrite take_app_length.
  replace (uint32le ts ++ uint32le (byteLength key)
             ++ uint32le (byteLength value) ++ payload key value)
    with (hdr ++ payload key value)
    by (unfold hdr; now rewrite <- !app_assoc).
  f_equal. unfold payload. f_equal. fold n.
  rewrite drop_app_add'; [|reflexivity].
  now rewrite drop_replicate.
Qed.

(** The two slices behind the header of a row. *)
Lemma toString_record_bytes (pre post : list byte) (ts : Z)
    (key value : list Z) :
  let buffer := pre ++ record_bytes (ts, key, value) ++ post in
  toString buffer (len pre + HEADER_SIZE)
    (len pre + HEADER_SIZE + byteLength key)
  = stored_key (ts, key, value)
  /\ toString buffer (len pre + HEADER_SIZE + byteLength key)
       (len pre + HEADER_SIZE + byteLength key + byteLength value)
     = stored_value (ts, key, value).
Proof.
  intros buffer. subst buffer. unfold record_bytes, stored_key, stored_value.
  pose proof (byteLength_nonneg key) as Hk.
  pose proof (byteLength_nonneg value) as Hv.
  pose proof (length_payload key value) as Hp.
  set (p := payload key value) in *.
  set (hdr := uint32le ts ++ uint32le (byteLength key)
                ++ uint32le (byteLength value)).
  replace (pre ++ (uint32le ts ++ uint32le (byteLength key)
                     ++ uint32le (byteLength value) ++ p) ++ post)
    with ((pre ++ hdr) ++ p ++ post)
    by (unfold hdr; now rewrite <- !app_assoc).
  assert (Hl : len pre + HEADER_SIZE = len (pre ++ hdr))
    by (rewrite len_app; reflexivity).
  pose proof (len_nonneg (pre ++ hdr)) as Hnn.
  rewrite Hl. split.
  - rewrite toString_slice by lia. f_equal.
    unfold len. rewrite Nat2Z.id, drop_app_length.
    replace (Z.to_nat (_ + _ - _)) with (Z.to_nat (byteLength key)) by lia.
    apply take_app_le. lia.
  - rewrite toString_slice by lia. f_equal.
    replace (Z.to_nat (len (pre ++ hdr) + byteLength key))
      with (length (pre ++ hdr) + Z.to_nat (byteLength key))%nat
      by (unfold len; lia).
    rewrite <- drop_drop, drop_app_length.
    replace (Z.to_nat (_ + _ + _ - _)) with (Z.to_nat (byteLength value))
      by lia.
    rewrite drop_app_le by lia.
    rewrite take_app_length'; [reflexivity|].
    rewrite length_drop. lia.
Qed.

(** Decoding the row of a valid record at offset 0 gives the key and the
    value as they are read back. *)
Lemma decodeKV_record_bytes (ts : Z) (key value : list Z) :
  valid_record (ts, key, value) ->
  decodeKV (record_bytes (ts, key, value)) 0
  = Ok (ts, stored_key (ts, key, value), stored_value (ts, key, value)).
Proof.
  intros (Ht & Hk & Hv). unfold decodeKV.
  assert (Hh : decodeHeader (record_bytes (ts, key, value)) 0
               = Ok (ts, byteLength key, byteLength value))
    by exact (decodeHeader_app [] (payload key value) ts _ _ Ht Hk Hv).
  rewrite Hh. clear Hh.
  cbn [mbind Result_bind mret Result_ret].
  destruct (toString_record_bytes [] [] ts key value) as [Ek Ev].
  cbn [app] in Ek, Ev. change (len []) with 0 in Ek, Ev.
  rewrite app_nil_r in Ek, Ev. rewrite !Z.add_0_l in Ek, Ev.
  now rewrite Ek, Ev.
Qed.

(** What is read back from the row of a record with a well-formed key:
    the key itself, and the value made well-formed. *)
Lemma stored_well_formed_key (ts : Z) (key value : list Z) :
  isWellFormed key ->
  stored_key (ts, key, value) = key
  /\ stored_value (ts, key, value) = toWellFormed value
  /\ payload key value = utf8_encode key ++ utf8_encode value.
Proof.
  intros Hw. unfold stored_key, stored_value, payload.
  rewrite (utf8_encode_app_wf key value Hw).
  replace (Z.to_nat (byteLength key + byteLength value)
           - length (utf8_encode key ++ utf8_encode value))%nat with 0%nat
    by (rewrite length_app; unfold byteLength, len; lia).
  cbn [replicate]. rewrite app_nil_r.
  unfold byteLength, len. rewrite Nat2Z.id.
  rewrite take_app_length, drop_app_length.
  pose proof (utf8_decode_encode key []) as E1.
  pose proof (utf8_decode_encode value []) as E2.
  rewrite !app_nil_r in E1, E2. rewrite E1, E2, Hw. tauto.
Qed.

Lemma stored_well_formed (r : Z * list Z * list Z) :
  well_formed_record r -> stored_key r = r.1.2 /\ stored_value r = r.2.
Proof.
  destruct r as [[ts key] value]. intros [Hk Hv].
  destruct (stored_well_formed_key ts key value Hk) as (E1 & E2 & _).
  cbn [fst snd]. rewrite E1, E2, Hv. tauto.
Qed.

(** C6, as stated, fails.  The key is the single code unit D800, a
    leading surrogate without its partner: its byte length is 3, the
    timestamp and the value are in range, and [decodeKV] of the encoding
    returns the key U+FFFD, not the key that was encoded. *)
Lemma decodeKV_encodeKV_unpaired_surrogate :
  ~ (forall (timestamp : Z) (key value : list Z),
        0 <= timestamp <= 2 ^ 32 - 1 ->
        byteLength key <= 2 ^ 32 - 1 ->
        byteLength value <= 2 ^ 32 - 1 ->
        (data ← encodeKV timestamp key value; decodeKV data 0)
        = Ok (timestamp, key, value)).
Proof.
  intros H.
  specialize (H 7 [55296] (js "a") ltac:(lia)
                ltac:(vm_compute; discriminate)
                ltac:(vm_compute; discriminate)).
  vm_compute in H. discriminate H.
Qed.

Example decodeKV_encodeKV_at_unpaired_surrogate :
  (data ← encodeKV 7 [55296] (js "a"); decodeKV data 0)
  = Ok (7, [REPLACEMENT], js "a").
Proof. reflexivity. Qed.

(** Text of one, two, three and four bytes a character (a, U+00E9,
    U+20AC and the pair D83D DE00) comes back as it was encoded. *)
Example decodeKV_encodeKV_at_non_ascii :
  isWellFormed [97; 233; 8364; 55357; 56832]
  /\ byteLength [97; 233; 8364; 55357; 56832] = 10
  /\ (data ← encodeKV 7 [97; 233; 8364; 55357; 56832] [55357; 56832];
      decodeKV data 0)
     = Ok (7, [97; 233; 8364; 55357; 56832], [55357; 56832]).
Proof. split; [evaluate|]. split; evaluate. Qed.

(** C6, amended.  Round trip of the codec for well-formed strings: for a
    timestamp in [0, 2^32 - 1] and a key and a value without unpaired
    surrogates whose byte lengths fit in 32 bits, [encodeKV] returns a
    buffer and [decodeKV] of that buffer at offset 0 returns the
    timestamp, the key and the value that were encoded. *)
Theorem decodeKV_encodeKV (timestamp : Z) (key value : list Z) :
  0 <= timestamp <= 2 ^ 32 - 1 ->
  byteLength key <= 2 ^ 32 - 1 ->
  byteLength value <= 2 ^ 32 - 1 ->
  isWellFormed key ->
  isWellFormed value ->
  (data ← encodeKV timestamp key value; decodeKV data 0)
  = Ok (timestamp, key, value).
Proof.
  intros Ht Hk Hv Wk Wv.
  pose proof (byteLength_nonneg key). pose proof (byteLength_nonneg value).
  assert (Hr : valid_record (timestamp, key, value))
    by (unfold valid_record, in_uint32; lia).
  rewrite (encodeKV_record_bytes _ _ _ Hr). cbn [mbind Result_bind].
  rewrite (decodeKV_record_bytes _ _ _ Hr).
  destruct (stored_well_formed (timestamp, key, value) (conj Wk Wv))
    as [-> ->].
  reflexivity.
Qed.

Lemma decodeKV_encodeKV_witness :
  (0 <= 1700000000 <= 2 ^ 32 - 1
   /\ byteLength (js "othello") <= 2 ^ 32 - 1
   /\ byteLength (js "shakespeare") <= 2 ^ 32 - 1
   /\ isWellFormed (js "othello")
   /\ isWellFormed (js "shakespeare"))
  /\ (data ← encodeKV 1700000000 (js "othello") (js "shakespeare");
      decodeKV data 0)
     = Ok (1700000000, js "othello", js "shakespeare").
Proof.
  assert (H1 : 0 <= 1700000000 <= 2 ^ 32 - 1) by lia.
  assert (H2 : byteLength (js "othello") <= 2 ^ 32 - 1)
    by (vm_compute; discriminate).
  assert (H3 : byteLength (js "shakespeare") <= 2 ^ 32 - 1)
    by (vm_compute; discriminate).
  assert (H4 : isWellFormed (js "othello")) by reflexivity.
  assert (H5 : isWellFormed (js "shakespeare")) by reflexivity.
  split; [tauto|].
  exact (decodeKV_encodeKV 1700000000 (js "othello") (js "shakespeare")
           H1 H2 H3 H4 H5).
Defined.

End RoundTrip.

Section HeaderBounds.

Lemma len_store (buf : Buffer) (off : nat) (bytes : list byte) :
  (off + length bytes <= length buf)%nat ->
  len (store buf off bytes) = len buf.
Proof.
  intros H. unfold len, store.
  rewrite !length_app, length_take, length_drop. lia.
Qed.

(** A write whose four bytes lie in the buffer fails only on the
    value. *)
Lemma writeUInt32LE_cases (buf : Buffer) (v offset : Z) :
  0 <= offset -> offset + 4 <= len buf ->
  (in_uint32 v
   /\ exists buf', writeUInt32LE buf v offset = Ok buf' /\ len buf' = len buf)
  \/ (~ in_uint32 v
      /\ writeUInt32LE buf v offset = Throw ERR_OUT_OF_RANGE_value).
Proof.
  intros H0 H1. unfold in_uint32.
  destruct (Z_lt_ge_dec v 0) as [Hneg|Hpos].
  { right. split; [lia|]. apply writeUInt32LE_value_Throw. lia. }
  destruct (Z_lt_ge_dec 4294967295 v) as [Hbig|Hsmall].
  { right. split; [lia|]. apply writeUInt32LE_value_Throw. lia. }
  left. split; [lia|]. unfold writeUInt32LE, out_of_bounds.
  destruct (v >? 4294967295) eqn:E1; [lia|].
  destruct (v <? 0) eqn:E2; [lia|].
  destruct (offset <? 0) eqn:E3; [lia|].
  destruct (len buf <=? offset + 3) eqn:E4; [lia|].
  simpl. eexists. split; [reflexivity|].
  apply len_store. rewrite length_uint32le. unfold len in H1. lia.
Qed.

(** C7.  On a buffer that holds the twelve header bytes, [encodeHeader]
    throws the value-out-of-range [RangeError] when the timestamp, the
    key size or the value size equals 2^32, and it succeeds when every
    field lies in [0, 2^32 - 1], the bound 2^32 - 1 included; the header
    it stored then decodes to the three fields. *)
Theorem encodeHeader_boundary (buff : Buffer) (timestamp kSize vSize : Z) :
  HEADER_SIZE <= len buff ->
  (timestamp = 2 ^ 32 \/ kSize = 2 ^ 32 \/ vSize = 2 ^ 32 ->
   encodeHeader buff timestamp kSize vSize = Throw ERR_OUT_OF_RANGE_value)
  /\ (0 <= timestamp <= 2 ^ 32 - 1 ->
      0 <= kSize <= 2 ^ 32 - 1 ->
      0 <= vSize <= 2 ^ 32 - 1 ->
      exists buff',
        encodeHeader buff timestamp kSize vSize = Ok buff'
        /\ decodeHeader buff' 0 = Ok (timestamp, kSize, vSize)).
Proof.
  unfold HEADER_SIZE. intros Hl. split.
  - intros Hbad. unfold encodeHeader.
    destruct (writeUInt32LE_cases buff timestamp 0)
      as [(Ht & b1 & -> & L1)|(Ht & ->)]; [lia|lia| |reflexivity].
    cbn [mbind Result_bind].
    destruct (writeUInt32LE_cases b1 kSize 4)
      as [(Hk & b2 & -> & L2)|(Hk & ->)]; [lia|lia| |reflexivity].
    cbn [mbind Result_bind].
    destruct (writeUInt32LE_cases b2 vSize 8)
      as [(Hv & b3 & -> & L3)|(Hv & ->)]; [lia|lia| |reflexivity].
    unfold in_uint32 in *. lia.
  - intros Ht Hk Hv.
    assert (in_uint32 timestamp /\ in_uint32 kSize /\ in_uint32 vSize)
      as (Ht' & Hk' & Hv') by (unfold in_uint32; lia).
    eexists. split; [now apply encodeHeader_Ok|].
    exact (decodeHeader_app [] _ _ _ _ Ht' Hk' Hv').
Qed.

Lemma encodeHeader_boundary_witness :
  HEADER_SIZE <= len (alloc HEADER_SIZE)
  /\ encodeHeader (alloc HEADER_SIZE) (2 ^ 32) 5 3
     = Throw ERR_OUT_OF_RANGE_value
  /\ exists buff',
      encodeHeader (alloc HEADER_SIZE) (2 ^ 32 - 1) (2 ^ 32 - 1) (2 ^ 32 - 1)
      = Ok buff'
      /\ decodeHeader buff' 0 = Ok (2 ^ 32 - 1, 2 ^ 32 - 1, 2 ^ 32 - 1).
Proof.
  assert (Hl : HEADER_SIZE <= len (alloc HEADER_SIZE))
    by (vm_compute; discriminate).
  split; [exact Hl|]. split.
  - apply (proj1 (encodeHeader_boundary (alloc HEADER_SIZE) (2 ^ 32) 5 3 Hl)).
    left. reflexivity.
  - apply (proj2 (encodeHeader_boundary (alloc HEADER_SIZE)
                    (2 ^ 32 - 1) (2 ^ 32 - 1) (2 ^ 32 - 1) Hl)); lia.
Defined.

Lemma readUInt32LE_cases (buf : Buffer) (offset : Z) :
  (0 <= offset /\ offset + 4 <= len buf
   /\ exists v, readUInt32LE buf offset = Ok v)
  \/ ((offset < 0 \/ len buf < offset + 4)
      /\ readUInt32LE buf offset = Throw (boundsError buf)).
Proof.
  destruct (Z_lt_ge_dec offset 0).
  { right. split; [lia|]. apply readUInt32LE_Throw. lia. }
  destruct (Z_lt_ge_dec (len buf) (offset + 4)).
  { right. split; [lia|]. apply readUInt32LE_Throw. lia. }
  left. repeat split; [lia|lia|]. apply readUInt32LE_Ok; lia.
Qed.

(** [decodeHeader] throws exactly when the twelve bytes from [offset] are
    not all in the buffer. *)
Lemma decodeHeader_Throw (buff : Buffer) (offset : Z) :
  offset < 0 \/ len buff < offset + HEADER_SIZE ->
  decodeHeader buff offset = Throw (boundsError buff).
Proof.
  unfold HEADER_SIZE. intros H. unfold decodeHeader.
  destruct (readUInt32LE_cases buff offset)
    as [(? & ? & v0 & ->)|(? & ->)]; [|reflexivity].
  cbn [mbind Result_bind].
  destruct (readUInt32LE_cases buff (offset + 4))
    as [(? & ? & v1 & ->)|(? & ->)]; [|reflexivity].
  cbn [mbind Result_bind].
  destruct (readUInt32LE_cases buff (offset + 8))
    as [(? & ? & v2 & ->)|(? & ->)]; [|reflexivity].
  lia.
Qed.

Lemma decodeHeader_Ok (buff : Buffer) (offset : Z) :
  0 <= offset -> offset + HEADER_SIZE <= len buff ->
  exists ts ks vs, decodeHeader buff offset = Ok (ts, ks, vs).
Proof.
  unfold HEADER_SIZE. intros H0 H1. unfold decodeHeader.
  destruct (readUInt32LE_Ok buff offset) as [v0 ->]; [lia|lia|].
  destruct (readUInt32LE_Ok buff (offset + 4)) as [v1 ->]; [lia|lia|].
  destruct (readUInt32LE_Ok buff (offset + 8)) as [v2 ->]; [lia|lia|].
  cbn. eauto.
Qed.

Lemma decodeHeader_range (buff : Buffer) (offset ts ks vs : Z) :
  decodeHeader buff offset = Ok (ts, ks, vs) ->
  in_uint32 ts /\ in_uint32 ks /\ in_uint32 vs
  /\ 0 <= offset /\ offset + HEADER_SIZE <= len buff.
Proof.
  unfold decodeHeader, HEADER_SIZE. intros H.
  destruct (readUInt32LE_cases buff offset)
    as [(? & ? & v0 & E0)|(? & E0)]; rewrite E0 in H; [|discriminate].
  cbn [mbind Result_bind] in H.
  destruct (readUInt32LE_cases buff (offset + 4))
    as [(? & ? & v1 & E1)|(? & E1)]; rewrite E1 in H; [|discriminate].
  cbn [mbind Result_bind] in H.
  destruct (readUInt32LE_cases buff (offset + 8))
    as [(? & ? & v2 & E2)|(? & E2)]; rewrite E2 in H; [|discriminate].
  cbn in H. injection H as <- <- <-.
  apply readUInt32LE_range in E0, E1, E2.
  unfold in_uint32. lia.
Qed.

End HeaderBounds.

Section Decoding.

(** C5, as stated, fails: the buffer [header_without_payload] ends before
    the key byte that its header declares, and [decodeKV] returns a
    result for it (an empty key and an empty value) instead of
    throwing. *)
Lemma decodeKV_truncated_payload_returns :
  ~ (forall (buff : Buffer) (offset : Z),
        record_truncated buff offset = true ->
        exists e, decodeKV buff offset = Throw e).
Proof.
  intros H.
  destruct (H header_without_payload 0 eq_refl) as [e He].
  vm_compute in He. discriminate He.
Qed.

Example decodeKV_header_without_payload :
  decodeKV header_without_payload 0 = Ok (0, [], []).
Proof. reflexivity. Qed.

(** C5, amended.  [decodeKV] throws, with the bounds [RangeError] of
    [readUInt32LE], when the buffer does not hold the twelve header bytes
    at [offset]; when it holds them, [decodeKV] returns a result whatever
    the number of bytes behind the header: the key and the value are the
    slices that [toString] clamps to the buffer. *)
Theorem decodeKV_throws_on_truncated_header (buff : Buffer) (offset : Z) :
  (offset < 0 \/ len buff < offset + HEADER_SIZE ->
   decodeKV buff offset = Throw (boundsError buff))
  /\ (0 <= offset /\ offset + HEADER_SIZE <= len buff ->
      exists ts ks vs,
        decodeHeader buff offset = Ok (ts, ks, vs)
        /\ decodeKV buff offset
           = Ok (ts,
                 toString buff HEADER_SIZE (HEADER_SIZE + ks),
                 toString buff (HEADER_SIZE + ks) (HEADER_SIZE + ks + vs))).
Proof.
  split.
  - intros H. unfold decodeKV. now rewrite decodeHeader_Throw.
  - intros [H0 H1].
    destruct (decodeHeader_Ok buff offset H0 H1) as (ts & ks & vs & E).
    exists ts, ks, vs. split; [exact E|].
    unfold decodeKV. rewrite E. reflexivity.
Qed.

Lemma decodeKV_throws_on_truncated_header_witness :
  (len (alloc 11) < 0 + HEADER_SIZE
   /\ decodeKV (alloc 11) 0 = Throw (boundsError (alloc 11)))
  /\ ((0 <= 0 /\ 0 + HEADER_SIZE <= len header_without_payload)
      /\ exists ts ks vs,
          decodeHeader header_without_payload 0 = Ok (ts, ks, vs)
          /\ decodeKV header_without_payload 0
             = Ok (ts,
                   toString header_without_payload HEADER_SIZE
                     (HEADER_SIZE + ks),
                   toString header_without_payload (HEADER_SIZE + ks)
                     (HEADER_SIZE + ks + vs))).
Proof.
  assert (H1 : len (alloc 11) < 0 + HEADER_SIZE) by reflexivity.
  assert (H2 : 0 <= 0 /\ 0 + HEADER_SIZE <= len header_without_payload)
    by (split; vm_compute; discriminate).
  split; split.
  - exact H1.
  - apply (proj1 (decodeKV_throws_on_truncated_header (alloc 11) 0)).
    right. exact H1.
  - exact H2.
  - exact (proj2 (decodeKV_throws_on_truncated_header
                    header_without_payload 0) H2).
Defined.

Lemma take1_drop_app_last (pre : list byte) (b : byte) (n : nat) :
  (n < length pre)%nat ->
  exists c, take 1 (drop n (pre ++ [b])) = [c] /\ c ∈ pre.
Proof.
  intros Hn.
  destruct (lookup_lt_is_Some_2 pre n Hn) as [c Hc].
  exists c. split; [|eapply list_elem_of_lookup_2; eassumption].
  rewrite drop_app_le by lia.
  rewrite <- (take_drop_middle pre n c Hc).
  rewrite drop_app_length'; [reflexivity|].
  rewrite length_take. lia.
Qed.

Lemma utf8_decode_single_a (c : byte) :
  utf8_decode [c] = js "a" -> c = "a"%byte.
Proof.
  destruct c; vm_compute; intros H; first [reflexivity|discriminate H].
Qed.

Lemma record_at_behind_zeros (offset : Z) :
  0 <= offset ->
  decodeHeader (record_behind_zeros offset) offset = Ok (0, 1, 0)
  /\ record_at (record_behind_zeros offset) offset
     = Ok (0, js "a", []).
Proof.
  intros H0.
  assert (Hlen : len (alloc offset) = offset)
    by (unfold len; rewrite alloc_length; lia).
  assert (Hh : decodeHeader (record_behind_zeros offset) offset
               = Ok (0, 1, 0)).
  { rewrite <- Hlen at 2. unfold record_behind_zeros, record_bytes.
    apply decodeHeader_app; unfold in_uint32; cbn; lia. }
  split; [exact Hh|]. unfold record_at. rewrite Hh.
  cbn [mbind Result_bind mret Result_ret]. unfold HEADER_SIZE.
  rewrite !toString_slice by lia.
  replace (Z.to_nat (offset + 12 + 1 - (offset + 12))) with 1%nat by lia.
  replace (Z.to_nat (offset + 12 + 1 + 0 - (offset + 12 + 1)))
    with 0%nat by lia.
  unfold record_behind_zeros.
  replace (Z.to_nat (offset + 12)) with (length (alloc offset) + 12)%nat
    by (rewrite alloc_length; lia).
  rewrite <- drop_drop, drop_app_length. reflexivity.
Qed.

(** C10.  [decodeKV] reads the three header fields at [offset] and takes
    the key and the value from the fixed byte ranges [12, 12 + kSize) and
    [12 + kSize, 12 + kSize + vSize) of the buffer, whatever [offset] is.
    At offset 0 this is the record located there; for every other
    offset there is a buffer with a complete record at [offset] that
    [decodeKV] does not return. *)
Theorem decodeKV_payload_ignores_offset :
  (forall (buff : Buffer) (offset ts ks vs : Z),
      decodeHeader buff offset = Ok (ts, ks, vs) ->
      decodeKV buff offset
      = Ok (ts,
            utf8_decode (take (Z.to_nat ks) (drop 12 buff)),
            utf8_decode
              (take (Z.to_nat vs) (drop (12 + Z.to_nat ks) buff))))
  /\ (forall buff : Buffer, decodeKV buff 0 = record_at buff 0)
  /\ (forall offset : Z,
         0 < offset ->
         exists (buff : Buffer) (r : Z * list Z * list Z),
           record_at buff offset = Ok r /\ decodeKV buff offset <> Ok r).
Proof.
  split; [|split].
  - intros buff offset ts ks vs E.
    destruct (decodeHeader_range _ _ _ _ _ E) as (_ & Hk & Hv & _).
    unfold in_uint32 in *.
    unfold decodeKV. rewrite E. cbn [mbind Result_bind mret Result_ret].
    unfold HEADER_SIZE. rewrite !toString_slice by lia.
    repeat f_equal; lia.
  - intros buff. reflexivity.
  - intros offset Hpos.
    destruct (record_at_behind_zeros offset ltac:(lia)) as [Hh Hr].
    exists (record_behind_zeros offset), (0, js "a", []).
    split; [exact Hr|].
    unfold decodeKV. rewrite Hh. cbn [mbind Result_bind mret Result_ret].
    unfold HEADER_SIZE. rewrite toString_slice by lia.
    intros [= Hkey _].
    change (Z.to_nat (12 + 1 - 12)) with 1%nat in Hkey.
    change (Z.to_nat 12) with 12%nat in Hkey.
    unfold record_behind_zeros, record_bytes in Hkey.
    change (payload (js "a") []) with ["a"%byte] in Hkey.
    rewrite !app_assoc in Hkey.
    destruct (take1_drop_app_last
                (((alloc offset ++ uint32le 0)
                    ++ uint32le (byteLength (js "a")))
                   ++ uint32le (byteLength [])) "a"%byte 12)
      as (c & Hc & Hin).
    { rewrite !length_app, alloc_length. simpl. lia. }
    rewrite Hc in Hkey. apply utf8_decode_single_a in Hkey. subst c.
    rewrite !elem_of_app in Hin. unfold alloc in Hin.
    destruct Hin as [[[Hin|Hin]|Hin]|Hin].
    + apply elem_of_replicate in Hin. destruct Hin as [Hin _].
      discriminate Hin.
    + apply list_elem_of_In in Hin. vm_compute in Hin.
      intuition discriminate.
    + apply list_elem_of_In in Hin. vm_compute in Hin.
      intuition discriminate.
    + apply list_elem_of_In in Hin. vm_compute in Hin.
      intuition discriminate.
Qed.

Lemma decodeKV_payload_ignores_offset_witness :
  (decodeHeader (record_behind_zeros 20) 20 = Ok (0, 1, 0)
   /\ decodeKV (record_behind_zeros 20) 20
      = Ok (0, utf8_decode [x00], []))
  /\ (0 < 20
      /\ exists (buff : Buffer) (r : Z * list Z * list Z),
          record_at buff 20 = Ok r /\ decodeKV buff 20 <> Ok r).
Proof.
  assert (Hh : decodeHeader (record_behind_zeros 20) 20 = Ok (0, 1, 0))
    by reflexivity.
  assert (Hp : 0 < 20) by reflexivity.
  split; split.
  - exact Hh.
  - exact (proj1 decodeKV_payload_ignores_offset
             (record_behind_zeros 20) 20 0 1 0 Hh).
  - exact Hp.
  - exact (proj2 (proj2 decodeKV_payload_ignores_offset) 20 Hp).
Defined.

End Decoding.

(** * Properties of the log store *)

Section Operations.

(** [set] on a record that [encodeKV] accepts, with a file system that
    works: the row is appended, the index points the key at the cursor and
    the cursor advances by the length of the row. *)
Lemma set_Ok (ts : Z) (key value : list Z) (st : Store) :
  valid_record (ts, key, value) ->
  set DiskOk ts key value st
  = (Ok tt,
     {| _file := _file st ++ record_bytes (ts, key, value);
        _keyDir :=
          <[key := mkKeyEntry ts (_writePosition st)
                     (len (record_bytes (ts, key, value)))]> (_keyDir st);
        _writePosition :=
          _writePosition st + len (record_bytes (ts, key, value)) |}).
Proof.
  intros Hr. unfold set, mbind, M_bind, lift.
  rewrite (encodeKV_record_bytes _ _ _ Hr). reflexivity.
Qed.

(** [get] for a key of the index: the entry's bytes are read into a fresh
    buffer and decoded. *)
Lemma get_entry (key : list Z) (entry : KeyEntry) (st : Store) :
  _keyDir st !! key = Some entry ->
  get key st
  = (match decodeKV (read_entry (_file st) entry) 0 with
     | Ok (_, _, value) => Ok (Some value)
     | Throw e => Throw e
     end, st).
Proof.
  intros He. unfold get, mbind, M_bind, gets. rewrite He.
  unfold file_read, read_entry, store, lift, alloc. cbn [take app Nat.add].
  rewrite drop_replicate.
  destruct (decodeKV _ 0) as [[[? ?] ?]|]; reflexivity.
Qed.

Lemma get_absent (key : list Z) (st : Store) :
  _keyDir st !! key = None -> get key st = (Ok None, st).
Proof.
  intros He. unfold get, mbind, M_bind, gets. now rewrite He.
Qed.

(** [get] never changes the store. *)
Lemma get_store (key : list Z) (st : Store) : snd (get key st) = st.
Proof.
  destruct (_keyDir st !! key) as [entry|] eqn:E.
  - now rewrite (get_entry _ _ _ E).
  - now rewrite (get_absent _ _ E).
Qed.

Lemma len_record_bytes (ts : Z) (key value : list Z) :
  len (record_bytes (ts, key, value))
  = HEADER_SIZE + byteLength key + byteLength value.
Proof.
  unfold record_bytes. rewrite !len_app, len_payload, !len_uint32le.
  unfold HEADER_SIZE. lia.
Qed.

Lemma read_entry_exact (pre post : list byte) (r : Z * list Z * list Z)
    (ts : Z) :
  read_entry (pre ++ record_bytes r ++ post)
    (mkKeyEntry ts (len pre) (len (record_bytes r)))
  = record_bytes r.
Proof.
  unfold read_entry. cbn [size position]. unfold len.
  rewrite !Nat2Z.id, drop_app_length, take_app_length.
  rewrite Nat.sub_diag. apply app_nil_r.
Qed.

End Operations.

Section PutGet.

(** Put-then-get where the cursor is at the end of the file, for any
    two strings: [get] returns what the row holds behind the key's bytes,
    which is the value as UTF-8 decoding gives it back. *)
Lemma get_after_set_stored (ts : Z) (key value : list Z) (st : Store) :
  aligned st ->
  valid_record (ts, key, value) ->
  let st' := snd (set DiskOk ts key value st) in
  get key st' = (Ok (Some (stored_value (ts, key, value))), st').
Proof.
  intros Ha Hr. rewrite (set_Ok _ _ _ _ Hr). cbn [snd].
  erewrite get_entry by (cbn [_keyDir]; apply lookup_insert_eq).
  cbn [_file]. rewrite Ha.
  pose proof (read_entry_exact (_file st) [] (ts, key, value) ts) as Hx.
  rewrite app_nil_r in Hx. rewrite Hx.
  now rewrite (decodeKV_record_bytes _ _ _ Hr).
Qed.

(** Put-then-get where the cursor is at the end of the file and the key
    and the value are well-formed text: [get] returns the value just
    written.  This is the case of a store opened on an empty file and
    written to by successful calls of [set] only (see [aligned_open_empty]
    and [aligned_set]).  A value with an unpaired surrogate comes back
    with U+FFFD in its place (see [get_after_set_unpaired_surrogate]). *)
Theorem get_after_set_aligned (ts : Z) (key value : list Z) (st : Store) :
  aligned st ->
  valid_record (ts, key, value) ->
  isWellFormed key ->
  isWellFormed value ->
  let st' := snd (set DiskOk ts key value st) in
  get key st' = (Ok (Some value), st').
Proof.
  intros Ha Hr Wk Wv st'. subst st'.
  rewrite (get_after_set_stored _ _ _ _ Ha Hr).
  destruct (stored_well_formed (ts, key, value)) as [_ Ev];
    [split; assumption|].
  now rewrite Ev.
Qed.

(** The value that is a single leading surrogate: [get] after [set] in a
    fresh store returns U+FFFD. *)
Example get_after_set_unpaired_surrogate :
  fst (get (js "k") (snd (set DiskOk 1 (js "k") [55296] fresh)))
  = Ok (Some [REPLACEMENT]).
Proof. reflexivity. Qed.

Lemma aligned_set (ts : Z) (key value : list Z) (st : Store) :
  aligned st ->
  valid_record (ts, key, value) ->
  aligned (snd (set DiskOk ts key value st)).
Proof.
  intros Ha Hr. rewrite (set_Ok _ _ _ _ Hr). unfold aligned in *.
  cbn [snd _file _writePosition]. rewrite len_app. lia.
Qed.

Lemma aligned_open_empty :
  exists st, DiskStorage [] = Ok st /\ aligned st /\ _keyDir st = ∅.
Proof. eexists. split; [reflexivity|]. split; reflexivity. Qed.

End PutGet.

Section Failure.

(** C9.  When the file system rejects the write or the sync, [set] throws,
    and whenever [set] throws (for these or for a rejected encoding) the
    index and the cursor are the ones from before the call: the index is
    only touched after both calls have succeeded. *)
Theorem set_failure_leaves_index (disk : Disk) (ts : Z) (key value : list Z)
    (st : Store) :
  (valid_record (ts, key, value) -> disk <> DiskOk ->
   fst (set disk ts key value st) = Throw EIO)
  /\ (forall e st',
         set disk ts key value st = (Throw e, st') ->
         _keyDir st' = _keyDir st /\ _writePosition st' = _writePosition st).
Proof.
  split.
  - intros Hr Hd. unfold set, mbind, M_bind, lift.
    rewrite (encodeKV_record_bytes _ _ _ Hr).
    destruct disk; [congruence|reflexivity|reflexivity].
  - intros e st'. unfold set, mbind, M_bind, lift.
    destruct (encodeKV ts key value) as [data|e0].
    + destruct disk; cbn; intros [= <- <-] || intros [=]; split; reflexivity.
    + intros [= <- <-]. split; reflexivity.
Qed.

Lemma set_failure_leaves_index_witness :
  let st :=
    snd (set DiskOk 1 (js "hamlet") (js "shakespeare") (mkStore [] ∅ 0)) in
  (valid_record (2, js "othello", js "shakespeare")
   /\ SyncFails <> DiskOk
   /\ fst (set SyncFails 2 (js "othello") (js "shakespeare") st) = Throw EIO)
  /\ (set (WriteFails 5) 2 (js "othello") (js "shakespeare") st
      = (Throw EIO,
         snd (set (WriteFails 5) 2 (js "othello") (js "shakespeare") st))
      /\ _keyDir
           (snd (set (WriteFails 5) 2 (js "othello") (js "shakespeare") st))
         = _keyDir st
      /\ _writePosition
           (snd (set (WriteFails 5) 2 (js "othello") (js "shakespeare") st))
         = _writePosition st).
Proof.
  intros st.
  assert (Hr : valid_record (2, js "othello", js "shakespeare"))
    by (vm_compute; intuition discriminate).
  assert (Hd : SyncFails <> DiskOk) by discriminate.
  assert (Hs : set (WriteFails 5) 2 (js "othello") (js "shakespeare") st
               = (Throw EIO,
                  snd (set (WriteFails 5) 2 (js "othello")
                         (js "shakespeare") st)))
    by reflexivity.
  split; [split; [exact Hr|split; [exact Hd|]]|split; [exact Hs|]].
  - exact (proj1 (set_failure_leaves_index SyncFails 2 (js "othello")
                    (js "shakespeare")
                    st) Hr Hd).
  - exact (proj2 (set_failure_leaves_index (WriteFails 5) 2 (js "othello")
                    (js "shakespeare") st) EIO _ Hs).
Defined.

End Failure.

Section Recovery.

(** The loop of [_initKeyDir], one iteration unfolded. *)
Lemma _initKeyDir_loop_S (fuel : nat) (buffer : Buffer) (bytesRead offset : Z)
    (keyDir : gmap (list Z) KeyEntry) :
  offset < bytesRead ->
  _initKeyDir_loop (S fuel) buffer bytesRead offset keyDir
  = match decodeHeader buffer offset with
    | Throw e => Some (Throw e, keyDir)
    | Ok (timestamp, keySize, valueSize) =>
        let key :=
          toString buffer (offset + HEADER_SIZE)
            (offset + HEADER_SIZE + keySize) in
        let value :=
          toString buffer (offset + HEADER_SIZE + keySize)
            (offset + HEADER_SIZE + keySize + valueSize) in
        _initKeyDir_loop fuel buffer bytesRead
          (offset + (HEADER_SIZE + keySize + valueSize))
          (if is_empty value && has keyDir key
           then delete key keyDir
           else <[key := {| size := HEADER_SIZE + keySize + valueSize;
                            position := offset;
                            timestamp := timestamp |}]> keyDir)
    end.
Proof.
  intros Hlt. cbn [_initKeyDir_loop].
  destruct (offset <? bytesRead) eqn:E; [|lia].
  destruct (decodeHeader buffer offset) as [[[ts ks] vs]|e]; [|reflexivity].
  cbv zeta. destruct (_ && _); reflexivity.
Qed.

Lemma _initKeyDir_loop_done (fuel : nat) (buffer : Buffer)
    (bytesRead offset : Z) (keyDir : gmap (list Z) KeyEntry) :
  bytesRead <= offset ->
  _initKeyDir_loop fuel buffer bytesRead offset keyDir = Some (Ok tt, keyDir).
Proof.
  intros Hge. destruct fuel; cbn [_initKeyDir_loop];
    destruct (offset <? bytesRead) eqn:E; try lia; reflexivity.
Qed.

(** Termination: every iteration advances the offset by at least the
    twelve bytes of a header, so fuel beyond the distance to the end of the
    bytes read is never used up. *)
Lemma _initKeyDir_loop_fuel (fuel : nat) (buffer : Buffer)
    (bytesRead offset : Z) (keyDir : gmap (list Z) KeyEntry) :
  bytesRead - offset <= Z.of_nat fuel ->
  exists r keyDir',
    _initKeyDir_loop fuel buffer bytesRead offset keyDir = Some (r, keyDir').
Proof.
  revert offset keyDir.
  induction fuel as [|fuel IH]; intros offset keyDir Hf.
  - rewrite _initKeyDir_loop_done by lia. eauto.
  - destruct (Z_lt_ge_dec offset bytesRead) as [Hlt|Hge].
    + rewrite _initKeyDir_loop_S by exact Hlt.
      destruct (decodeHeader buffer offset) as [[[ts ks] vs]|e] eqn:E;
        [|eauto].
      destruct (decodeHeader_range _ _ _ _ _ E) as (_ & Hk & Hv & _).
      unfold in_uint32, HEADER_SIZE in *. cbv zeta. apply IH. lia.
    + rewrite _initKeyDir_loop_done by lia. eauto.
Qed.

(** [_initKeyDir] reads the whole file into its buffer. *)
Lemma file_read_whole (file : list byte) :
  file_read file (alloc (len file)) (len file) 0 = (len file, file).
Proof.
  assert (Hd : take (Z.to_nat (len file)) (drop (Z.to_nat 0) file) = file).
  { unfold len. rewrite Nat2Z.id. change (Z.to_nat 0) with 0%nat.
    rewrite drop_0. apply take_ge. lia. }
  unfold file_read. rewrite Hd. unfold store. f_equal.
  rewrite take_0, drop_ge; [apply app_nil_r|].
  rewrite alloc_length. unfold len. lia.
Qed.

(** [_initKeyDir] is the loop over the file, started at offset 0; the
    fuel it passes is enough. *)
Lemma _initKeyDir_loop_result (st : Store) :
  exists r keyDir',
    _initKeyDir_loop (S (length (_file st))) (_file st) (len (_file st)) 0
      (_keyDir st) = Some (r, keyDir')
    /\ _initKeyDir st = (r, with_keyDir keyDir' st).
Proof.
  destruct (_initKeyDir_loop_fuel (S (length (_file st))) (_file st)
              (len (_file st)) 0 (_keyDir st)) as (r & kd & E).
  { unfold len. lia. }
  exists r, kd. split; [exact E|].
  unfold _initKeyDir. rewrite file_read_whole.
  destruct (len (_file st) =? 0) eqn:E0.
  - rewrite _initKeyDir_loop_done in E by lia.
    injection E as <- <-. destruct st; reflexivity.
  - now rewrite E.
Qed.

(** The store that [DiskStorage] returns holds the file it was opened on,
    and its cursor is 0, whatever the length of that file. *)
Lemma DiskStorage_Ok (file : list byte) (st : Store) :
  DiskStorage file = Ok st ->
  _file st = file /\ _writePosition st = 0
  /\ _initKeyDir_loop (S (length file)) file (len file) 0 ∅
     = Some (Ok tt, _keyDir st).
Proof.
  unfold DiskStorage.
  destruct (_initKeyDir_loop_result (mkStore file ∅ 0)) as (r & kd & E & ->).
  cbn [_file _keyDir] in E.
  destruct r as [[]|e]; [|discriminate]. intros [= <-].
  repeat split. exact E.
Qed.

End Recovery.

Section Entries.

Lemma entries_sized_insert (keyDir : gmap (list Z) KeyEntry) (key : list Z)
    (entry : KeyEntry) :
  entries_sized keyDir -> HEADER_SIZE <= size entry ->
  entries_sized (<[key := entry]> keyDir).
Proof.
  intros Hk He k e. rewrite lookup_insert. case_decide.
  - now intros [= <-].
  - apply Hk.
Qed.

Lemma entries_sized_delete (keyDir : gmap (list Z) KeyEntry) (key : list Z) :
  entries_sized keyDir -> entries_sized (delete key keyDir).
Proof.
  intros Hk k e. rewrite lookup_delete. case_decide; [discriminate|apply Hk].
Qed.

Lemma _initKeyDir_loop_sized (fuel : nat) (buffer : Buffer)
    (bytesRead offset : Z) (keyDir keyDir' : gmap (list Z) KeyEntry)
    (r : Result unit) :
  entries_sized keyDir ->
  _initKeyDir_loop fuel buffer bytesRead offset keyDir = Some (r, keyDir') ->
  entries_sized keyDir'.
Proof.
  revert offset keyDir.
  induction fuel as [|fuel IH]; intros offset keyDir Hs.
  - cbn [_initKeyDir_loop]. destruct (offset <? bytesRead); [discriminate|].
    now intros [= <- <-].
  - destruct (Z_lt_ge_dec offset bytesRead) as [Hlt|Hge].
    + rewrite _initKeyDir_loop_S by exact Hlt.
      destruct (decodeHeader buffer offset) as [[[ts ks] vs]|e] eqn:E;
        [|now intros [= <- <-]].
      destruct (decodeHeader_range _ _ _ _ _ E) as (_ & Hk & Hv & _).
      unfold in_uint32 in *. cbv zeta. apply IH.
      destruct (_ && _).
      * now apply entries_sized_delete.
      * apply entries_sized_insert; [exact Hs|]. cbn [size]. lia.
    + rewrite _initKeyDir_loop_done by lia. now intros [= <- <-].
Qed.

(** [encodeKV] returns a buffer only for a record whose header fields fit,
    and the buffer is then the row of the record. *)
Lemma encodeKV_Ok_inv (ts : Z) (key value : list Z) (data : Buffer) :
  encodeKV ts key value = Ok data ->
  valid_record (ts, key, value) /\ data = record_bytes (ts, key, value).
Proof.
  intros H.
  assert (Hr : valid_record (ts, key, value)).
  { unfold encodeKV, encodeHeader in H.
    pose proof (byteLength_nonneg key). pose proof (byteLength_nonneg value).
    set (buff := alloc _) in H.
    assert (Hl : len buff = HEADER_SIZE + byteLength key + byteLength value).
    { unfold buff, len. rewrite alloc_length. unfold HEADER_SIZE. lia. }
    unfold HEADER_SIZE in Hl.
    destruct (writeUInt32LE_cases buff ts 0)
      as [(Ht & b1 & E1 & L1)|(Ht & E1)]; [lia|lia| |];
      rewrite E1 in H; [|discriminate].
    cbn [mbind Result_bind] in H.
    destruct (writeUInt32LE_cases b1 (byteLength key) 4)
      as [(Hk & b2 & E2 & L2)|(Hk & E2)]; [lia|lia| |];
      rewrite E2 in H; [|discriminate].
    cbn [mbind Result_bind] in H.
    destruct (writeUInt32LE_cases b2 (byteLength value) 8)
      as [(Hv & b3 & E3 & L3)|(Hv & E3)]; [lia|lia| |];
      rewrite E3 in H; [|discriminate].
    unfold valid_record. tauto. }
  split; [exact Hr|].
  rewrite (encodeKV_record_bytes _ _ _ Hr) in H. now injection H.
Qed.

Lemma set_sized (disk : Disk) (ts : Z) (key value : list Z) (st : Store) :
  entries_sized (_keyDir st) ->
  entries_sized (_keyDir (snd (set disk ts key value st))).
Proof.
  intros Hs. unfold set, mbind, M_bind, lift.
  destruct (encodeKV ts key value) as [data|e] eqn:E; [|exact Hs].
  destruct (encodeKV_Ok_inv _ _ _ _ E) as [Hr ->].
  destruct disk; cbn -[record_bytes len]; try exact Hs.
  apply entries_sized_insert; [exact Hs|]. cbn [size].
  rewrite len_record_bytes.
  pose proof (byteLength_nonneg key). pose proof (byteLength_nonneg value).
  lia.
Qed.

Lemma reachable_sized (st : Store) :
  reachable st -> entries_sized (_keyDir st).
Proof.
  induction 1 as [file st Ho|disk ts key value st _ IH|n st _ IH].
  - apply DiskStorage_Ok in Ho. destruct Ho as (_ & _ & Hl).
    eapply _initKeyDir_loop_sized; [|exact Hl].
    intros k e. rewrite lookup_empty. discriminate.
  - now apply set_sized.
  - exact IH.
Qed.

Lemma len_read_entry (file : list byte) (entry : KeyEntry) :
  0 <= size entry -> len (read_entry file entry) = size entry.
Proof.
  intros H. unfold read_entry, len.
  rewrite length_app, length_replicate, length_take. lia.
Qed.

(** C4, as stated, fails.  A store is opened on an empty file, "name" is
    set to "jojo", and the file is then cut to length 0 from outside.  The
    key is in the index with an entry of 20 bytes at position 0, the file
    holds none of them, and [get] returns a value, the empty string,
    instead of throwing. *)
Lemma get_after_truncation_returns :
  let st :=
    truncated 0
      (snd (set DiskOk 1 (js "name") (js "jojo") (mkStore [] ∅ 0))) in
  reachable st
  /\ _keyDir st !! (js "name") = Some (mkKeyEntry 1 0 20)
  /\ len (_file st) < 0 + 20
  /\ fst (get (js "name") st) = Ok (Some [])
  /\ snd (get (js "name") st) = st.
Proof.
  cbv zeta. split; [|split; [|split; [|split]]].
  - apply reachable_truncated, reachable_set.
    now apply (reachable_open []).
  - reflexivity.
  - reflexivity.
  - reflexivity.
  - apply get_store.
Qed.

(** C4, amended.  For a key of the index, [get] does not check how many
    bytes the file still holds: it decodes the buffer of [size] bytes into
    which the read has copied what the file holds from [position] on, the
    rest being the zero bytes of the allocation, and it returns the value
    of that decoding.  It neither throws nor returns [undefined]. *)
Theorem get_decodes_short_read (st : Store) (key : list Z) (entry : KeyEntry) :
  reachable st ->
  _keyDir st !! key = Some entry ->
  exists ts k v,
    decodeKV (read_entry (_file st) entry) 0 = Ok (ts, k, v)
    /\ get key st = (Ok (Some v), st).
Proof.
  intros Hr He.
  pose proof (reachable_sized st Hr key entry He) as Hs.
  unfold HEADER_SIZE in Hs.
  destruct (decodeHeader_Ok (read_entry (_file st) entry) 0)
    as (ts & ks & vs & Eh).
  { lia. }
  { rewrite len_read_entry by lia. unfold HEADER_SIZE. lia. }
  rewrite (get_entry _ _ _ He). unfold decodeKV. rewrite Eh.
  cbn [mbind Result_bind mret Result_ret]. eauto.
Qed.

Lemma get_decodes_short_read_witness :
  let st :=
    truncated 16
      (snd (set DiskOk 1 (js "name") (js "jojo") (mkStore [] ∅ 0))) in
  (reachable st /\ _keyDir st !! (js "name") = Some (mkKeyEntry 1 0 20))
  /\ exists ts k v,
      decodeKV (read_entry (_file st) (mkKeyEntry 1 0 20)) 0 = Ok (ts, k, v)
      /\ get (js "name") st = (Ok (Some v), st).
Proof.
  intros st.
  assert (Hr : reachable st).
  { apply reachable_truncated, reachable_set.
    now apply (reachable_open []). }
  assert (He : _keyDir st !! (js "name") = Some (mkKeyEntry 1 0 20))
    by reflexivity.
  split; [split; [exact Hr|exact He]|].
  exact (get_decodes_short_read st (js "name") (mkKeyEntry 1 0 20) Hr He).
Defined.

End Entries.

Section Replay.

Lemma log_bytes_cons (r : Z * list Z * list Z)
    (rs : list (Z * list Z * list Z)) :
  log_bytes (r :: rs) = record_bytes r ++ log_bytes rs.
Proof. reflexivity. Qed.

Lemma log_bytes_app (rs1 rs2 : list (Z * list Z * list Z)) :
  log_bytes (rs1 ++ rs2) = log_bytes rs1 ++ log_bytes rs2.
Proof. unfold log_bytes. apply flat_map_app. Qed.

Lemma record_bytes_length (r : Z * list Z * list Z) :
  HEADER_SIZE <= len (record_bytes r).
Proof.
  destruct r as [[ts key] value]. rewrite len_record_bytes.
  pose proof (byteLength_nonneg key). pose proof (byteLength_nonneg value).
  lia.
Qed.

Lemma log_bytes_length (rs : list (Z * list Z * list Z)) :
  Z.of_nat (length rs) <= len (log_bytes rs).
Proof.
  induction rs as [|r rs IH]; [reflexivity|].
  rewrite log_bytes_cons, len_app.
  pose proof (record_bytes_length r). unfold HEADER_SIZE in *.
  cbn [length]. lia.
Qed.

(** The header of a valid record is read back from the place where its
    row lies in a buffer, and the two slices behind it are the stored key
    and the stored value of the record. *)
Lemma record_at_record_bytes (pre post : list byte) (ts : Z)
    (key value : list Z) :
  valid_record (ts, key, value) ->
  let buffer := pre ++ record_bytes (ts, key, value) ++ post in
  decodeHeader buffer (len pre)
  = Ok (ts, byteLength key, byteLength value)
  /\ toString buffer (len pre + HEADER_SIZE)
       (len pre + HEADER_SIZE + byteLength key)
     = stored_key (ts, key, value)
  /\ toString buffer (len pre + HEADER_SIZE + byteLength key)
       (len pre + HEADER_SIZE + byteLength key + byteLength value)
     = stored_value (ts, key, value).
Proof.
  intros (Ht & Hk & Hv) buffer. subst buffer. split.
  - unfold record_bytes.
    replace (pre ++ (uint32le ts ++ uint32le (byteLength key)
                       ++ uint32le (byteLength value) ++ payload key value)
               ++ post)
      with (pre ++ uint32le ts ++ uint32le (byteLength key)
              ++ uint32le (byteLength value) ++ (payload key value ++ post))
      by (now rewrite <- !app_assoc).
    now apply decodeHeader_app.
  - apply toString_record_bytes.
Qed.

(** Over the rows of valid records, the loop of [_initKeyDir] completes
    and computes [replay]. *)
Lemma _initKeyDir_loop_replay (rs : list (Z * list Z * list Z)) :
  Forall valid_record rs ->
  forall (fuel : nat) (pre : list byte) (keyDir : gmap (list Z) KeyEntry),
    (length rs <= fuel)%nat ->
    _initKeyDir_loop fuel (pre ++ log_bytes rs) (len (pre ++ log_bytes rs))
      (len pre) keyDir
    = Some (Ok tt, replay rs (len pre) keyDir).
Proof.
  induction 1 as [|[[ts key] value] rs Hr Hrs IH]; intros fuel pre keyDir Hf.
  - cbn [log_bytes flat_map replay]. rewrite app_nil_r.
    apply _initKeyDir_loop_done. lia.
  - destruct fuel as [|fuel]; [cbn [length] in Hf; lia|].
    rewrite log_bytes_cons.
    pose proof (record_bytes_length (ts, key, value)) as Hlen.
    unfold HEADER_SIZE in Hlen.
    rewrite _initKeyDir_loop_S.
    2:{ rewrite !len_app. pose proof (len_nonneg (log_bytes rs)). lia. }
    destruct (record_at_record_bytes pre (log_bytes rs) ts key value Hr)
      as (Eh & Ek & Ev).
    rewrite Eh. cbv zeta. rewrite Ek, Ev.
    cbn [replay]. unfold replay_record at 1.
    rewrite <- !(len_record_bytes ts key value).
    replace (len pre + len (record_bytes (ts, key, value)))
      with (len (pre ++ record_bytes (ts, key, value)))
      by apply len_app.
    rewrite (app_assoc pre). apply IH. cbn [length] in Hf. lia.
Qed.

(** Recovery of a log of valid records: [DiskStorage] returns the store
    whose index is [replay] of the records from offset 0, and whose cursor
    is 0. *)
Theorem DiskStorage_log_bytes (rs : list (Z * list Z * list Z)) :
  Forall valid_record rs ->
  DiskStorage (log_bytes rs)
  = Ok {| _file := log_bytes rs;
          _keyDir := replay rs 0 ∅;
          _writePosition := 0 |}.
Proof.
  intros Hrs. unfold DiskStorage.
  destruct (_initKeyDir_loop_result (mkStore (log_bytes rs) ∅ 0))
    as (r & kd & E & ->).
  cbn [_file _keyDir] in E.
  pose proof (_initKeyDir_loop_replay rs Hrs (S (length (log_bytes rs))) []
                ∅) as Hl.
  cbn [app] in Hl. change (len []) with 0 in Hl.
  rewrite Hl in E.
  2:{ pose proof (log_bytes_length rs). unfold len in *. lia. }
  injection E as <- <-. reflexivity.
Qed.

Lemma replay_app (rs1 rs2 : list (Z * list Z * list Z)) (offset : Z)
    (keyDir : gmap (list Z) KeyEntry) :
  replay (rs1 ++ rs2) offset keyDir
  = replay rs2 (offset + len (log_bytes rs1)) (replay rs1 offset keyDir).
Proof.
  revert offset keyDir.
  induction rs1 as [|r rs1 IH]; intros offset keyDir.
  - cbn. now rewrite Z.add_0_r.
  - cbn [app replay]. rewrite IH, log_bytes_cons, len_app.
    now rewrite Z.add_assoc.
Qed.

End Replay.

Section Stored.

(** The key that is read back from the row of a record is the key made
    well-formed, whatever the value is. *)
Lemma stored_key_toWellFormed (ts : Z) (key value : list Z) :
  stored_key (ts, key, value) = toWellFormed key.
Proof.
  unfold stored_key, payload, byteLength, len. rewrite Nat2Z.id.
  apply utf8_decode_take_encode.
Qed.

Lemma stored_key_well_formed (r : Z * list Z * list Z) :
  isWellFormed (stored_key r).
Proof. destruct r as [[ts key] value]. apply utf8_decode_well_formed. Qed.

(** The value read back from the row of a record is empty for the empty
    value only. *)
Lemma stored_value_nonempty (ts : Z) (key value : list Z) :
  value <> [] -> stored_value (ts, key, value) <> [].
Proof.
  intros Hv H. unfold stored_value in H. apply utf8_decode_nil in H.
  apply (f_equal (@length byte)) in H.
  rewrite length_drop, length_payload in H. cbn [length] in H.
  pose proof (byteLength_nonneg key). pose proof (byteLength_nonneg value).
  apply Hv, byteLength_nil. lia.
Qed.

Lemma stored_value_tombstone (ts : Z) (key : list Z) :
  stored_value (ts, key, []) = [].
Proof.
  unfold stored_value. rewrite drop_ge; [reflexivity|].
  rewrite length_payload. change (byteLength []) with 0. lia.
Qed.

(** Recovery only ever inserts keys that a decoder has returned: if the
    keys of the index are well-formed before the loop, they are so after
    it. *)
Lemma replay_well_formed_keys (rs : list (Z * list Z * list Z)) :
  forall (offset : Z) (keyDir : gmap (list Z) KeyEntry),
    (forall k, is_Some (keyDir !! k) -> isWellFormed k) ->
    forall k, is_Some (replay rs offset keyDir !! k) -> isWellFormed k.
Proof.
  induction rs as [|[[ts key] value] rs IH]; intros offset keyDir Hkd;
    [exact Hkd|].
  cbn [replay]. apply IH. intros k. unfold replay_record.
  destruct (is_empty _ && has keyDir _).
  - intros Hk. apply Hkd. rewrite lookup_delete_is_Some in Hk. tauto.
  - rewrite lookup_insert_is_Some. intros [<-|[_ Hk]].
    + apply stored_key_well_formed.
    + now apply Hkd.
Qed.

End Stored.

Section Tombstones.

(** A record with a non-empty value followed by a tombstone for the same
    key leaves the key out of the replayed index, when the index before
    the two records holds well-formed keys only. *)
Lemma replay_put_then_tombstone (t1 t2 : Z) (key value : list Z) (offset : Z)
    (keyDir : gmap (list Z) KeyEntry) :
  value <> [] ->
  (forall k, is_Some (keyDir !! k) -> isWellFormed k) ->
  replay [(t1, key, value); (t2, key, [])] offset keyDir !! key
  = None.
Proof.
  intros Hv Hkd. cbn [replay]. unfold replay_record at 2.
  rewrite stored_key_toWellFormed.
  destruct (is_empty (stored_value (t1, key, value))) eqn:E.
  { destruct (stored_value (t1, key, value)) eqn:Es; [|discriminate E].
    now apply stored_value_nonempty in Es. }
  cbn [andb]. unfold replay_record.
  rewrite stored_key_toWellFormed, stored_value_tombstone.
  cbn [is_empty]. unfold has at 1. rewrite lookup_insert_eq. cbn [andb].
  destruct (decide (toWellFormed key = key)) as [Ek|Ek].
  - rewrite Ek. apply lookup_delete_eq.
  - rewrite lookup_delete_ne, lookup_insert_ne by exact Ek.
    destruct (keyDir !! key) as [entry|] eqn:E'; [|reflexivity].
    exfalso. apply Ek, Hkd. now rewrite E'.
Qed.

(** Delete, then close and reopen: on a store whose file is a log of valid
    records, after [set(key, value)] with a non-empty value and a [set] of
    the empty string for the same key, the store that [DiskStorage]
    returns for the file left by [close] has no entry for the key, and
    [get] returns [undefined]. *)
Theorem get_after_delete_and_reopen (rs : list (Z * list Z * list Z))
    (st : Store) (t1 t2 : Z) (key value : list Z) :
  Forall valid_record rs ->
  _file st = log_bytes rs ->
  valid_record (t1, key, value) ->
  in_uint32 t2 ->
  value <> [] ->
  let st2 := snd (set DiskOk t2 key []
                    (snd (set DiskOk t1 key value st))) in
  exists st3,
    DiskStorage (close st2) = Ok st3
    /\ _keyDir st3 !! key = None
    /\ get key st3 = (Ok None, st3).
Proof.
  intros Hrs Hf Hr1 Ht2 Hv.
  assert (Hr2 : valid_record (t2, key, [])).
  { destruct Hr1 as (_ & Hk & _). unfold valid_record.
    split; [exact Ht2|split; [exact Hk|]].
    unfold in_uint32. change (byteLength []) with 0. lia. }
  rewrite (set_Ok _ _ _ _ Hr1). cbn [snd].
  rewrite (set_Ok _ _ _ _ Hr2). cbn [snd]. cbv zeta.
  unfold close. cbn [_file]. rewrite Hf.
  assert (Hlog : (log_bytes rs ++ record_bytes (t1, key, value))
                   ++ record_bytes (t2, key, [])
                 = log_bytes (rs ++ [(t1, key, value); (t2, key, [])])).
  { rewrite log_bytes_app, <- app_assoc. f_equal.
    cbn [log_bytes flat_map]. now rewrite app_nil_r. }
  rewrite Hlog. rewrite DiskStorage_log_bytes.
  2:{ apply Forall_app. split; [exact Hrs|].
      constructor; [exact Hr1|]. constructor; [exact Hr2|]. constructor. }
  eexists. split; [reflexivity|].
  assert (Hk : replay (rs ++ [(t1, key, value); (t2, key, [])]) 0 ∅
               !! key = None).
  { rewrite replay_app. apply replay_put_then_tombstone; [exact Hv|].
    apply replay_well_formed_keys. intros k Hk.
    rewrite lookup_empty in Hk. now destruct Hk. }
  split; [exact Hk|]. now apply get_absent.
Qed.

(** C1.  A store is opened on an empty file; "othello" is set to
    "shakespeare" and then to the empty string.  In that session the key
    is still in the index, with the entry of the tombstone row, and [get]
    returns the empty string, not [undefined].  After [close] and a new
    [DiskStorage] on the same file the key is absent. *)
Theorem tombstone_set_keeps_key_in_session :
  let st0 := mkStore [] ∅ 0 in
  let st1 := snd (set DiskOk 1 (js "othello") (js "shakespeare") st0) in
  let st2 := snd (set DiskOk 2 (js "othello") [] st1) in
  DiskStorage [] = Ok st0
  /\ fst (get (js "othello") st1) = Ok (Some (js "shakespeare"))
  /\ _keyDir st2 !! (js "othello") = Some (mkKeyEntry 2 30 19)
  /\ fst (get (js "othello") st2) = Ok (Some [])
  /\ exists st3,
      DiskStorage (close st2) = Ok st3
      /\ fst (get (js "othello") st3) = Ok None.
Proof.
  cbv zeta. split; [evaluate|]. split; [evaluate|].
  split; [evaluate|]. split; [evaluate|].
  eexists. split.
  - evaluate.
  - evaluate.
Qed.

(** C2.  The log of "othello" set to "shakespeare", then to the empty
    string, then to the empty string again is the file that three calls of
    [set] leave.  Its most recent record for
    "othello" is a tombstone, and the index that recovery builds from it
    has an entry for "othello": the second tombstone finds no entry to
    remove and is inserted instead.  The same holds in the session itself
    after the first tombstone, where [set] inserts the entry of the
    tombstone row. *)
Theorem tombstone_leaves_key_in_index :
  let r1 := (1, js "othello", js "shakespeare") in
  let r2 := (2, js "othello", []) in
  let r3 := (3, js "othello", []) in
  let st0 := mkStore [] ∅ 0 in
  let st2 :=
    snd (set DiskOk 2 (js "othello") []
           (snd (set DiskOk 1 (js "othello") (js "shakespeare") st0))) in
  let st3 := snd (set DiskOk 3 (js "othello") [] st2) in
  (_file st2 = log_bytes [r1; r2]
   /\ live [r1; r2] (js "othello") = false
   /\ has (_keyDir st2) (js "othello") = true)
  /\ (close st3 = log_bytes [r1; r2; r3]
      /\ live [r1; r2; r3] (js "othello") = false
      /\ exists st,
          DiskStorage (close st3) = Ok st
          /\ _keyDir st !! (js "othello") = Some (mkKeyEntry 3 49 19)).
Proof.
  cbv zeta. split; [split; [evaluate|split; evaluate]|].
  split; [evaluate|]. split; [evaluate|].
  eexists. split.
  - evaluate.
  - evaluate.
Qed.

End Tombstones.

Section Cursor.

(** C3.  A store is opened on the log that holds the one record
    [name := jojo], 20 bytes long.  After the recovery scan the cursor is
    0, not 20.  The first [set] of that session appends its row at offset
    20 of the file, where [record_at] finds it, and the entry it records
    for the key has position 0. *)
Theorem reopen_leaves_writePosition_zero :
  let file := log_bytes [(1, js "name", js "jojo")] in
  exists st,
    DiskStorage file = Ok st
    /\ len (_file st) = 20
    /\ _writePosition st = 0
    /\ let st' := snd (set DiskOk 2 (js "city") (js "oslo") st) in
       record_at (_file st') 20 = Ok (2, js "city", js "oslo")
       /\ _keyDir st' !! (js "city") = Some (mkKeyEntry 2 0 20)
       /\ _writePosition st' = 20
       /\ len (_file st') = 40.
Proof.
  cbv zeta. eexists. split; [reflexivity|]. repeat split; reflexivity.
Qed.

(** C8.  In the session opened on the log that holds [name := jojo],
    [set("city", "oslo")] followed by [get("city")] returns "jojo": the
    entry of "city" has position 0, where the row of "name" lies. *)
Theorem get_after_set_on_reopened_log :
  let file := log_bytes [(1, js "name", js "jojo")] in
  exists st,
    DiskStorage file = Ok st
    /\ fst (get (js "city") (snd (set DiskOk 2 (js "city") (js "oslo") st)))
       = Ok (Some (js "jojo")).
Proof.
  cbv zeta. eexists. split; reflexivity.
Qed.

End Cursor.

Section Persistence.

Lemma last_value_snoc (rs : list (Z * list Z * list Z)) (ts : Z)
    (k v key : list Z) :
  last_value (rs ++ [(ts, k, v)]) key
  = if bool_decide (k = key) then Some v else last_value rs key.
Proof.
  induction rs as [|[[t0 k0] v0] rs IH].
  - reflexivity.
  - cbn [app last_value]. rewrite IH.
    destruct (bool_decide (k = key)); [reflexivity|].
    destruct (last_value rs key); reflexivity.
Qed.

Lemma last_value_well_formed (rs : list (Z * list Z * list Z))
    (key v : list Z) :
  Forall well_formed_record rs ->
  last_value rs key = Some v ->
  isWellFormed key /\ isWellFormed v.
Proof.
  induction 1 as [|[[t0 k0] v0] rs Hw Hws IH]; [discriminate|].
  cbn [last_value]. destruct (last_value rs key) as [v'|].
  - intros [= <-]. now apply IH.
  - destruct (bool_decide (k0 = key)) eqn:Ek; [|discriminate].
    apply bool_decide_eq_true in Ek. subst k0. intros [= <-]. exact Hw.
Qed.

(** An entry that lies inside the file reads the same bytes after the file
    has grown. *)
Lemma read_entry_app (file more : list byte) (entry : KeyEntry) :
  0 <= position entry -> 0 <= size entry ->
  position entry + size entry <= len file ->
  read_entry (file ++ more) entry = read_entry file entry.
Proof.
  intros Hp Hs Hl. unfold read_entry, len in *.
  rewrite drop_app_le by lia.
  rewrite take_app_le by (rewrite length_drop; lia).
  reflexivity.
Qed.

Lemma replay_snoc (rs : list (Z * list Z * list Z))
    (r : Z * list Z * list Z) :
  replay (rs ++ [r]) 0 ∅
  = replay_record (replay rs 0 ∅) (len (log_bytes rs)) r.
Proof. rewrite replay_app. reflexivity. Qed.

(** For a record of well-formed text the loop sees the key and the value
    of the record themselves. *)
Lemma replay_record_well_formed (keyDir : gmap (list Z) KeyEntry)
    (offset ts : Z) (k v : list Z) :
  well_formed_record (ts, k, v) ->
  replay_record keyDir offset (ts, k, v)
  = if is_empty v && has keyDir k then delete k keyDir
    else <[k := {| size := len (record_bytes (ts, k, v));
                   position := offset;
                   timestamp := ts |}]> keyDir.
Proof.
  intros Hw. unfold replay_record.
  destruct (stored_well_formed _ Hw) as [-> ->]. reflexivity.
Qed.

(** The index that recovery builds from a log of valid records of
    well-formed text points every key it holds at the most recent record
    for that key. *)
Lemma replay_points_at_last (rs : list (Z * list Z * list Z)) :
  Forall valid_record rs ->
  Forall well_formed_record rs ->
  entries_point_at_last rs (replay rs 0 ∅).
Proof.
  induction rs as [|[[ts k] v] rs IH] using rev_ind; intros Hrs Hws.
  - intros key entry. cbn [replay]. rewrite lookup_empty. discriminate.
  - apply Forall_app in Hrs. destruct Hrs as [Hrs Hr].
    apply Forall_inv in Hr.
    apply Forall_app in Hws. destruct Hws as [Hws Hw].
    apply Forall_inv in Hw. specialize (IH Hrs Hws).
    rewrite replay_snoc. intros key entry He.
    rewrite last_value_snoc, log_bytes_app.
    cbn [log_bytes flat_map]. rewrite app_nil_r. fold (log_bytes rs).
    pose proof (record_bytes_length (ts, k, v)) as Hlen.
    unfold HEADER_SIZE in Hlen.
    pose proof (len_nonneg (log_bytes rs)) as Hnn.
    destruct (bool_decide (k = key)) eqn:Ek.
    + apply bool_decide_eq_true in Ek. subst key.
      rewrite replay_record_well_formed in He by exact Hw.
      destruct (is_empty v && has (replay rs 0 ∅) k).
      * rewrite lookup_delete_eq in He. discriminate.
      * rewrite lookup_insert_eq in He. injection He as <-.
        pose proof (read_entry_exact (log_bytes rs) [] (ts, k, v) ts) as Hx.
        rewrite app_nil_r in Hx.
        exists ts, v. cbn [position size]. rewrite len_app.
        split; [reflexivity|]. split; [exact Hr|].
        split; [lia|]. split; [apply Z.le_refl|exact Hx].
    + apply bool_decide_eq_false in Ek.
      rewrite replay_record_well_formed in He by exact Hw.
      assert (He' : replay rs 0 ∅ !! key = Some entry).
      { destruct (is_empty v && has (replay rs 0 ∅) k).
        - now rewrite lookup_delete_ne in He.
        - now rewrite lookup_insert_ne in He. }
      destruct (IH key entry He') as (ts0 & v0 & Hl & Hv & Hp & Hb & Hread).
      assert (Hs : 0 <= size entry).
      { destruct (Z_lt_ge_dec (size entry) 0) as [Hneg|]; [|lia].
        exfalso. pose proof (record_bytes_length (ts0, key, v0)) as Hrl.
        rewrite <- Hread in Hrl. unfold read_entry in Hrl.
        replace (Z.to_nat (size entry)) with 0%nat in Hrl by lia.
        rewrite take_0 in Hrl. now apply Hrl. }
      exists ts0, v0. rewrite len_app.
      split; [exact Hl|]. split; [exact Hv|].
      split; [lia|]. split; [lia|].
      now rewrite read_entry_app.
Qed.

(** A key whose most recent record has a non-empty value is in the index
    that recovery builds. *)
Lemma replay_live (rs : list (Z * list Z * list Z)) (key : list Z) :
  Forall well_formed_record rs ->
  live rs key = true -> has (replay rs 0 ∅) key = true.
Proof.
  unfold live. induction rs as [|[[ts k] v] rs IH] using rev_ind; intros Hws.
  - discriminate.
  - apply Forall_app in Hws. destruct Hws as [Hws Hw].
    apply Forall_inv in Hw. specialize (IH Hws).
    rewrite replay_snoc, last_value_snoc.
    rewrite replay_record_well_formed by exact Hw. unfold has.
    destruct (bool_decide (k = key)) eqn:Ek.
    + apply bool_decide_eq_true in Ek. subst key. intros Hv.
      apply negb_true_iff in Hv. rewrite Hv. cbn [andb].
      now rewrite lookup_insert_eq.
    + apply bool_decide_eq_false in Ek. intros Hl. specialize (IH Hl).
      unfold has in IH.
      destruct (is_empty v && _).
      * now rewrite lookup_delete_ne.
      * now rewrite lookup_insert_ne.
Qed.

(** A key without a record in the log is not in the index. *)
Lemma replay_absent (rs : list (Z * list Z * list Z)) (key : list Z) :
  Forall well_formed_record rs ->
  last_value rs key = None -> replay rs 0 ∅ !! key = None.
Proof.
  induction rs as [|[[ts k] v] rs IH] using rev_ind; intros Hws.
  - intros _. apply lookup_empty.
  - apply Forall_app in Hws. destruct Hws as [Hws Hw].
    apply Forall_inv in Hw. specialize (IH Hws).
    rewrite replay_snoc, last_value_snoc.
    rewrite replay_record_well_formed by exact Hw.
    destruct (bool_decide (k = key)) eqn:Ek; [discriminate|].
    apply bool_decide_eq_false in Ek. intros Hl. specialize (IH Hl).
    destruct (is_empty v && _).
    + now rewrite lookup_delete_ne.
    + now rewrite lookup_insert_ne.
Qed.

(** Persistence.  [DiskStorage] on a log of valid records whose keys and
    values are well-formed text returns a store in which [get] answers,
    for every key of the index, with the value of the most recent record
    for that key; every key whose most recent record has a non-empty
    value is in the index, and no key without a record is.  A record
    with an unpaired surrogate is indexed under the key that decoding
    returns, U+FFFD in place of the surrogate (see
    [recovery_of_unpaired_surrogate]). *)
Theorem get_after_recovery (rs : list (Z * list Z * list Z)) :
  Forall valid_record rs ->
  Forall well_formed_record rs ->
  exists st,
    DiskStorage (log_bytes rs) = Ok st
    /\ (forall key entry,
           _keyDir st !! key = Some entry ->
           exists v, last_value rs key = Some v
                     /\ get key st = (Ok (Some v), st))
    /\ (forall key, live rs key = true -> has (_keyDir st) key = true)
    /\ (forall key, last_value rs key = None -> get key st = (Ok None, st)).
Proof.
  intros Hrs Hws. eexists. split; [now apply DiskStorage_log_bytes|].
  cbn [_keyDir]. split; [|split].
  - intros key entry He.
    destruct (replay_points_at_last rs Hrs Hws key entry He)
      as (ts & v & Hl & Hv & _ & _ & Hread).
    exists v. split; [exact Hl|].
    erewrite get_entry by (cbn [_keyDir]; exact He).
    cbn [_file]. rewrite Hread.
    rewrite (decodeKV_record_bytes _ _ _ Hv).
    assert (Hw : well_formed_record (ts, key, v))
      by exact (last_value_well_formed rs key v Hws Hl).
    destruct (stored_well_formed _ Hw) as [_ ->]. reflexivity.
  - intros key. now apply replay_live.
  - intros key Hl. apply get_absent. cbn [_keyDir]. now apply replay_absent.
Qed.

(** The log of one record whose key is a lone leading surrogate: the
    index that recovery builds has the key U+FFFD, and no entry for the
    key of the record. *)
Example recovery_of_unpaired_surrogate :
  exists st,
    DiskStorage (log_bytes [(1, [55296], js "v")]) = Ok st
    /\ _keyDir st !! [55296] = None
    /\ fst (get [REPLACEMENT] st) = Ok (Some (js "v")).
Proof. eexists. split; [reflexivity|]. split; reflexivity. Qed.

(** A tombstone [set] leaves the key in the index of the session. *)
Lemma set_tombstone_keeps_key (ts : Z) (key : list Z) (st : Store) :
  valid_record (ts, key, []) ->
  has (_keyDir (snd (set DiskOk ts key [] st))) key = true.
Proof.
  intros Hr. rewrite (set_Ok _ _ _ _ Hr). cbn [snd _keyDir].
  unfold has. now rewrite lookup_insert_eq.
Qed.

End Persistence.

(** * Further properties of the codec *)

Section CodecErrors.

Lemma writeUInt32LE_Ok_inv (buf buf' : Buffer) (v offset : Z) :
  writeUInt32LE buf v offset = Ok buf' ->
  in_uint32 v /\ 0 <= offset /\ offset + 4 <= len buf /\ len buf' = len buf.
Proof.
  intros H.
  destruct (Z_lt_ge_dec offset 0) as [Hneg|Hpos].
  { unfold writeUInt32LE, out_of_bounds in H.
    destruct ((v >? 4294967295) || (v <? 0)); [discriminate|].
    destruct (offset <? 0) eqn:E; [discriminate|lia]. }
  destruct (Z_lt_ge_dec (len buf) (offset + 4)) as [Hshort|Hlong].
  { unfold writeUInt32LE, out_of_bounds in H.
    destruct ((v >? 4294967295) || (v <? 0)); [discriminate|].
    destruct (offset <? 0); [discriminate|].
    destruct (len buf <=? offset + 3) eqn:E; [discriminate|lia]. }
  destruct (writeUInt32LE_cases buf v offset)
    as [(Hv & b & E & L)|(Hv & E)]; [lia|lia| |]; rewrite E in H.
  - injection H as <-. repeat split; try lia; apply Hv.
  - discriminate.
Qed.

(** [encodeHeader] returns only when the buffer holds twelve bytes and the
    three fields are unsigned 32-bit numbers; it then has changed nothing
    but the first twelve bytes, which decode to the three fields. *)
Theorem encodeHeader_frame (buff buff' : Buffer) (timestamp kSize vSize : Z) :
  encodeHeader buff timestamp kSize vSize = Ok buff' ->
  HEADER_SIZE <= len buff
  /\ in_uint32 timestamp /\ in_uint32 kSize /\ in_uint32 vSize
  /\ len buff' = len buff
  /\ drop 12 buff' = drop 12 buff
  /\ decodeHeader buff' 0 = Ok (timestamp, kSize, vSize).
Proof.
  intros H. pose proof H as H0. unfold encodeHeader in H0.
  destruct (writeUInt32LE buff timestamp 0) as [b1|] eqn:E1; [|discriminate].
  cbn [mbind Result_bind] in H0.
  destruct (writeUInt32LE b1 kSize 4) as [b2|] eqn:E2; [|discriminate].
  cbn [mbind Result_bind] in H0.
  apply writeUInt32LE_Ok_inv in E1, E2, H0.
  destruct E1 as (Ht & _ & _ & L1). destruct E2 as (Hk & _ & _ & L2).
  destruct H0 as (Hv & _ & L3 & L4).
  assert (Hl : 12 <= len buff) by lia.
  rewrite (encodeHeader_Ok buff _ _ _ Hl Ht Hk Hv) in H. injection H as <-.
  unfold HEADER_SIZE.
  split; [exact Hl|]. split; [exact Ht|]. split; [exact Hk|].
  split; [exact Hv|]. split; [|split].
  - congruence.
  - reflexivity.
  - exact (decodeHeader_app [] _ _ _ _ Ht Hk Hv).
Qed.

Lemma encodeHeader_frame_witness :
  encodeHeader (alloc 16) 7 2 2 = Ok (uint32le 7 ++ uint32le 2 ++ uint32le 2
                                        ++ alloc 4)
  /\ len (uint32le 7 ++ uint32le 2 ++ uint32le 2 ++ alloc 4) = len (alloc 16)
  /\ decodeHeader (uint32le 7 ++ uint32le 2 ++ uint32le 2 ++ alloc 4) 0
     = Ok (7, 2, 2).
Proof.
  assert (H : encodeHeader (alloc 16) 7 2 2
              = Ok (uint32le 7 ++ uint32le 2 ++ uint32le 2 ++ alloc 4))
    by reflexivity.
  pose proof (encodeHeader_frame _ _ _ _ _ H) as (_ & _ & _ & _ & L & _ & D).
  exact (conj H (conj L D)).
Defined.

(** [decodeHeader] throws, with the bounds error of [readUInt32LE],
    exactly when the twelve bytes from [offset] are not all inside the
    buffer; the three fields it returns are unsigned 32-bit numbers. *)
Theorem decodeHeader_bounds (buffer : Buffer) (offset : Z) :
  (decodeHeader buffer offset = Throw (boundsError buffer)
   <-> offset < 0 \/ len buffer < offset + HEADER_SIZE)
  /\ (forall ts ks vs,
         decodeHeader buffer offset = Ok (ts, ks, vs) ->
         in_uint32 ts /\ in_uint32 ks /\ in_uint32 vs).
Proof.
  split; [split|].
  - intros H.
    destruct (Z_lt_ge_dec offset 0); [lia|].
    destruct (Z_lt_ge_dec (len buffer) (offset + HEADER_SIZE)); [lia|].
    destruct (decodeHeader_Ok buffer offset) as (ts & ks & vs & E); [lia|lia|].
    rewrite E in H. discriminate.
  - apply decodeHeader_Throw.
  - intros ts ks vs E.
    destruct (decodeHeader_range _ _ _ _ _ E) as (? & ? & ? & _). tauto.
Qed.

Lemma encodeKV_invalid (ts : Z) (key value : list Z) :
  ~ valid_record (ts, key, value) ->
  encodeKV ts key value = Throw ERR_OUT_OF_RANGE_value.
Proof.
  intros Hn. unfold encodeKV, encodeHeader.
  pose proof (byteLength_nonneg key). pose proof (byteLength_nonneg value).
  set (buff := alloc _).
  assert (Hl : len buff = HEADER_SIZE + byteLength key + byteLength value).
  { unfold buff, len. rewrite alloc_length. unfold HEADER_SIZE. lia. }
  unfold HEADER_SIZE in Hl.
  destruct (writeUInt32LE_cases buff ts 0)
    as [(Ht & b1 & -> & L1)|(Ht & ->)]; [lia|lia| |reflexivity].
  cbn [mbind Result_bind].
  destruct (writeUInt32LE_cases b1 (byteLength key) 4)
    as [(Hk & b2 & -> & L2)|(Hk & ->)]; [lia|lia| |reflexivity].
  cbn [mbind Result_bind].
  destruct (writeUInt32LE_cases b2 (byteLength value) 8)
    as [(Hv & b3 & -> & L3)|(Hv & ->)]; [lia|lia| |reflexivity].
  exfalso. apply Hn. unfold valid_record. tauto.
Qed.

(** [encodeKV] returns a buffer exactly for the records whose timestamp
    and byte lengths are unsigned 32-bit numbers.  The buffer is
    12 + byteLength(key) + byteLength(value) bytes long: the header, then
    the UTF-8 bytes of the concatenated string, then zero bytes where
    these are fewer than the two byte lengths together.  Behind a
    well-formed key it is the row of the format comment (header, key
    bytes, value bytes).  For every other record [encodeKV] throws the
    value-out-of-range error of [writeUInt32LE]. *)
Theorem encodeKV_layout (timestamp : Z) (key value : list Z) :
  (valid_record (timestamp, key, value) ->
   encodeKV timestamp key value
   = Ok (uint32le timestamp ++ uint32le (byteLength key)
           ++ uint32le (byteLength value) ++ payload key value)
   /\ len (payload key value) = byteLength key + byteLength value
   /\ (exists zeros : nat,
          payload key value
          = utf8_encode (key ++ value) ++ replicate zeros x00)
   /\ (isWellFormed key ->
       payload key value = utf8_encode key ++ utf8_encode value))
  /\ (~ valid_record (timestamp, key, value) ->
      encodeKV timestamp key value = Throw ERR_OUT_OF_RANGE_value).
Proof.
  split.
  - intros Hr. split; [exact (encodeKV_record_bytes _ _ _ Hr)|].
    split; [apply len_payload|].
    split; [eexists; reflexivity|].
    intros Hw. now destruct (stored_well_formed_key timestamp key value Hw)
      as (_ & _ & Hp).
  - apply encodeKV_invalid.
Qed.

Lemma encodeKV_layout_witness :
  (valid_record (1700000000, js "hamlet", js "shakespeare")
   /\ encodeKV 1700000000 (js "hamlet") (js "shakespeare")
      = Ok (uint32le 1700000000 ++ uint32le 6 ++ uint32le 11
              ++ utf8_encode (js "hamlet") ++ utf8_encode (js "shakespeare")))
  /\ (~ valid_record (-1, js "hamlet", js "shakespeare")
      /\ encodeKV (-1) (js "hamlet") (js "shakespeare")
         = Throw ERR_OUT_OF_RANGE_value).
Proof.
  assert (H1 : valid_record (1700000000, js "hamlet",
                             js "shakespeare"))
    by (vm_compute; intuition discriminate).
  assert (H2 : ~ valid_record (-1, js "hamlet", js "shakespeare"))
    by (intros ([H _] & _); now apply H).
  split.
  - split; [exact H1|].
    exact (proj1 (proj1 (encodeKV_layout 1700000000 (js "hamlet")
                           (js "shakespeare")) H1)).
  - split; [exact H2|].
    exact (proj2 (encodeKV_layout (-1) (js "hamlet") (js "shakespeare")) H2).
Defined.

(** A key that ends in a leading surrogate before a value that starts
    with the trailing one: the two byte lengths are 3 and 3, the
    concatenated string is one character of four bytes, and the row ends
    in two zero bytes. *)
Example encodeKV_surrogate_pair_across :
  encodeKV 1 [55357] [56832]
  = Ok (uint32le 1 ++ uint32le 3 ++ uint32le 3
          ++ [xf0; x9f; x98; x80; x00; x00]).
Proof. reflexivity. Qed.

End CodecErrors.

(** * Further properties of the log store *)

Section SetErrors.

(** A record that [encodeKV] rejects never reaches the file: [set] throws
    the value-out-of-range error and the store (file, index, cursor) is the
    one from before the call, whatever the file system would have done. *)
Theorem set_invalid_record (disk : Disk) (ts : Z) (key value : list Z)
    (st : Store) :
  ~ valid_record (ts, key, value) ->
  set disk ts key value st = (Throw ERR_OUT_OF_RANGE_value, st).
Proof.
  intros Hn. unfold set, mbind, M_bind, lift.
  now rewrite (encodeKV_invalid _ _ _ Hn).
Qed.

Lemma set_invalid_record_witness :
  ~ valid_record (2 ^ 32, js "name", js "jojo")
  /\ set DiskOk (2 ^ 32) (js "name") (js "jojo") fresh
     = (Throw ERR_OUT_OF_RANGE_value, fresh).
Proof.
  assert (H : ~ valid_record (2 ^ 32, js "name", js "jojo"))
    by (intros ([_ H] & _); now apply H).
  exact (conj H (set_invalid_record DiskOk (2 ^ 32) (js "name") (js "jojo")
                   fresh H)).
Defined.

(** The log is append-only: whatever the arguments and the file system,
    [set] leaves the bytes that the file held in place and only adds bytes
    behind them; when it returns normally the bytes added are the row of
    the record. *)
Theorem set_appends_only (disk : Disk) (ts : Z) (key value : list Z)
    (st : Store) :
  exists suffix,
    _file (snd (set disk ts key value st)) = _file st ++ suffix
    /\ (fst (set disk ts key value st) = Ok tt ->
        suffix = record_bytes (ts, key, value)).
Proof.
  unfold set, mbind, M_bind, lift.
  destruct (encodeKV ts key value) as [data|e] eqn:E.
  - destruct (encodeKV_Ok_inv _ _ _ _ E) as [_ ->].
    destruct disk.
    + exists (record_bytes (ts, key, value)). split; reflexivity.
    + exists (take written (record_bytes (ts, key, value))).
      split; [reflexivity|discriminate].
    + exists (record_bytes (ts, key, value)). split; reflexivity.
  - exists []. split; [now rewrite app_nil_r|discriminate].
Qed.

End SetErrors.

Section RecoveryAnyFile.

Lemma entries_inside_insert (n : Z) (keyDir : gmap (list Z) KeyEntry)
    (key : list Z) (entry : KeyEntry) :
  entries_inside n keyDir ->
  0 <= position entry < n -> HEADER_SIZE <= size entry ->
  entries_inside n (<[key := entry]> keyDir).
Proof.
  intros Hk Hp Hs k e. rewrite lookup_insert. case_decide.
  - intros [= <-]. split; assumption.
  - apply Hk.
Qed.

Lemma entries_inside_delete (n : Z) (keyDir : gmap (list Z) KeyEntry)
    (key : list Z) :
  entries_inside n keyDir -> entries_inside n (delete key keyDir).
Proof.
  intros Hk k e. rewrite lookup_delete. case_decide; [discriminate|apply Hk].
Qed.

Lemma _initKeyDir_loop_inside (fuel : nat) (buffer : Buffer)
    (bytesRead offset : Z) (keyDir keyDir' : gmap (list Z) KeyEntry)
    (r : Result unit) :
  entries_inside bytesRead keyDir ->
  _initKeyDir_loop fuel buffer bytesRead offset keyDir = Some (r, keyDir') ->
  entries_inside bytesRead keyDir'.
Proof.
  revert offset keyDir.
  induction fuel as [|fuel IH]; intros offset keyDir Hs.
  - cbn [_initKeyDir_loop]. destruct (offset <? bytesRead); [discriminate|].
    now intros [= <- <-].
  - destruct (Z_lt_ge_dec offset bytesRead) as [Hlt|Hge].
    + rewrite _initKeyDir_loop_S by exact Hlt.
      destruct (decodeHeader buffer offset) as [[[ts ks] vs]|e] eqn:E;
        [|now intros [= <- <-]].
      destruct (decodeHeader_range _ _ _ _ _ E) as (_ & Hk & Hv & H0 & _).
      unfold in_uint32 in *. cbv zeta. apply IH.
      destruct (_ && _).
      * now apply entries_inside_delete.
      * apply entries_inside_insert; [exact Hs| |]; cbn [position size]; lia.
    + rewrite _initKeyDir_loop_done by lia. now intros [= <- <-].
Qed.

(** Recovery of any file.  When [DiskStorage] returns a store, for
    whatever bytes the file holds, the store holds the file unchanged and
    every entry of its index starts at an offset inside the file and spans
    at least the twelve bytes of a header. *)
Theorem DiskStorage_entries_inside (file : list byte) (st : Store) :
  DiskStorage file = Ok st ->
  _file st = file /\ entries_inside (len file) (_keyDir st).
Proof.
  intros Ho. apply DiskStorage_Ok in Ho. destruct Ho as (Hf & _ & Hl).
  split; [exact Hf|].
  eapply _initKeyDir_loop_inside; [|exact Hl].
  intros k e. rewrite lookup_empty. discriminate.
Qed.

Lemma DiskStorage_entries_inside_witness :
  let file := log_bytes [(1, js "name", js "jojo");
                         (2, js "city", js "oslo")] in
  let st := {| _file := file;
               _keyDir := replay [(1, js "name", js "jojo");
                                  (2, js "city", js "oslo")] 0 ∅;
               _writePosition := 0 |} in
  DiskStorage file = Ok st
  /\ _file st = file /\ entries_inside (len file) (_keyDir st).
Proof.
  intros file st.
  assert (H : DiskStorage file = Ok st) by reflexivity.
  exact (conj H (DiskStorage_entries_inside file st H)).
Defined.

(** The loop over a buffer that holds the rows of valid records followed
    by further bytes: after as many iterations as there are records it
    stands behind the last row with the replayed index. *)
Lemma _initKeyDir_loop_replay_then (rs : list (Z * list Z * list Z))
    (post : list byte) :
  Forall valid_record rs ->
  forall (fuel : nat) (pre : list byte) (keyDir : gmap (list Z) KeyEntry),
    _initKeyDir_loop (length rs + fuel) (pre ++ log_bytes rs ++ post)
      (len (pre ++ log_bytes rs ++ post)) (len pre) keyDir
    = _initKeyDir_loop fuel (pre ++ log_bytes rs ++ post)
        (len (pre ++ log_bytes rs ++ post)) (len pre + len (log_bytes rs))
        (replay rs (len pre) keyDir).
Proof.
  induction 1 as [|[[ts key] value] rs Hr Hrs IH]; intros fuel pre keyDir.
  - cbn [log_bytes flat_map replay length Nat.add].
    change (len []) with 0. now rewrite Z.add_0_r.
  - cbn [length Nat.add]. rewrite log_bytes_cons.
    pose proof (record_bytes_length (ts, key, value)) as Hlen.
    unfold HEADER_SIZE in Hlen.
    rewrite <- (app_assoc (record_bytes _)).
    rewrite _initKeyDir_loop_S.
    2:{ rewrite !len_app. pose proof (len_nonneg (log_bytes rs)).
        pose proof (len_nonneg post). lia. }
    destruct (record_at_record_bytes pre (log_bytes rs ++ post) ts key value
                Hr) as (Eh & Ek & Ev).
    rewrite Eh. cbv zeta. rewrite Ek, Ev.
    cbn [replay]. unfold replay_record at 1.
    rewrite <- !(len_record_bytes ts key value).
    replace (len pre + len (record_bytes (ts, key, value)))
      with (len (pre ++ record_bytes (ts, key, value)))
      by apply len_app.
    rewrite (app_assoc pre). rewrite IH.
    rewrite (len_app (record_bytes _)), (len_app pre). f_equal. lia.
Qed.

(** A file cut inside a header cannot be opened: when the rows of valid
    records are followed by one to eleven further bytes, the scan reaches
    the cut header and [DiskStorage] throws the bounds error of
    [readUInt32LE]; it does not stop at the last complete record. *)
Theorem DiskStorage_cut_header (rs : list (Z * list Z * list Z))
    (tail : list byte) :
  Forall valid_record rs ->
  0 < len tail < HEADER_SIZE ->
  DiskStorage (log_bytes rs ++ tail)
  = Throw (boundsError (log_bytes rs ++ tail)).
Proof.
  intros Hrs Ht. unfold HEADER_SIZE in Ht. unfold DiskStorage.
  destruct (_initKeyDir_loop_result (mkStore (log_bytes rs ++ tail) ∅ 0))
    as (r & kd & E & ->).
  cbn [_file _keyDir] in E.
  pose proof (log_bytes_length rs) as Hn.
  assert (Hfuel : S (length (log_bytes rs ++ tail))
                  = (length rs
                     + S (length (log_bytes rs ++ tail) - length rs))%nat).
  { rewrite length_app. unfold len in Hn. lia. }
  rewrite Hfuel in E.
  pose proof (_initKeyDir_loop_replay_then rs tail Hrs
                (S (length (log_bytes rs ++ tail) - length rs)) [] ∅) as Hl.
  cbn [app] in Hl. change (len []) with 0 in Hl. rewrite Hl in E. clear Hl.
  rewrite _initKeyDir_loop_S in E by (rewrite len_app; lia).
  rewrite decodeHeader_Throw in E
    by (right; rewrite len_app; unfold HEADER_SIZE; lia).
  injection E as <- <-. reflexivity.
Qed.

Lemma DiskStorage_cut_header_witness :
  let rs := [(1, js "name", js "jojo")] in
  let tail := take 7 (record_bytes (2, js "city", js "oslo")) in
  (Forall valid_record rs /\ 0 < len tail < HEADER_SIZE)
  /\ DiskStorage (log_bytes rs ++ tail)
     = Throw (boundsError (log_bytes rs ++ tail)).
Proof.
  intros rs tail.
  assert (H1 : Forall valid_record rs).
  { constructor; [|constructor]. vm_compute. intuition discriminate. }
  assert (H2 : 0 < len tail < HEADER_SIZE) by (split; reflexivity).
  exact (conj (conj H1 H2) (DiskStorage_cut_header rs tail H1 H2)).
Defined.

End RecoveryAnyFile.

Section Sessions.

(** Where every entry covers the row of the most recent record for its
    key, and the records are well-formed text, [get] returns the value of
    that record. *)
Lemma get_points_at_last (rs : list (Z * list Z * list Z)) (st : Store)
    (key : list Z) (entry : KeyEntry) :
  Forall well_formed_record rs ->
  _file st = log_bytes rs ->
  entries_point_at_last rs (_keyDir st) ->
  _keyDir st !! key = Some entry ->
  exists v, last_value rs key = Some v /\ get key st = (Ok (Some v), st).
Proof.
  intros Hws Hf Hp He.
  destruct (Hp key entry He) as (ts & v & Hl & Hv & _ & _ & Hread).
  exists v. split; [exact Hl|].
  rewrite (get_entry _ _ _ He), Hf, Hread.
  rewrite (decodeKV_record_bytes _ _ _ Hv).
  assert (Hw : well_formed_record (ts, key, v))
    by exact (last_value_well_formed rs key v Hws Hl).
  destruct (stored_well_formed _ Hw) as [_ ->]. reflexivity.
Qed.

Lemma entries_point_at_last_insert (rs : list (Z * list Z * list Z))
    (keyDir : gmap (list Z) KeyEntry) (ts : Z) (k v : list Z) :
  entries_point_at_last rs keyDir ->
  valid_record (ts, k, v) ->
  entries_point_at_last (rs ++ [(ts, k, v)])
    (<[k := mkKeyEntry ts (len (log_bytes rs)) (len (record_bytes (ts, k, v)))]>
       keyDir).
Proof.
  intros IH Hr key entry He.
  rewrite last_value_snoc, log_bytes_app.
  cbn [log_bytes flat_map]. rewrite app_nil_r. fold (log_bytes rs).
  pose proof (record_bytes_length (ts, k, v)) as Hlen.
  unfold HEADER_SIZE in Hlen.
  pose proof (len_nonneg (log_bytes rs)) as Hnn.
  destruct (bool_decide (k = key)) eqn:Ek.
  - apply bool_decide_eq_true in Ek. subst key.
    rewrite lookup_insert_eq in He. injection He as <-.
    pose proof (read_entry_exact (log_bytes rs) [] (ts, k, v) ts) as Hx.
    rewrite app_nil_r in Hx.
    exists ts, v. cbn [position size]. rewrite len_app.
    split; [reflexivity|]. split; [exact Hr|].
    split; [lia|]. split; [apply Z.le_refl|exact Hx].
  - apply bool_decide_eq_false in Ek.
    rewrite lookup_insert_ne in He by exact Ek.
    destruct (IH key entry He) as (ts0 & v0 & Hl & Hv & Hp & Hb & Hread).
    assert (Hs : 0 <= size entry).
    { destruct (Z_lt_ge_dec (size entry) 0) as [Hneg|]; [|lia].
      exfalso. pose proof (record_bytes_length (ts0, key, v0)) as Hrl.
      rewrite <- Hread in Hrl. unfold read_entry in Hrl.
      replace (Z.to_nat (size entry)) with 0%nat in Hrl by lia.
      rewrite take_0 in Hrl. now apply Hrl. }
    exists ts0, v0. rewrite len_app.
    split; [exact Hl|]. split; [exact Hv|].
    split; [lia|]. split; [lia|].
    now rewrite read_entry_app.
Qed.

Lemma set_all_snoc (rs : list (Z * list Z * list Z)) (ts : Z)
    (key value : list Z) (st : Store) :
  set_all (rs ++ [(ts, key, value)]) st
  = snd (set DiskOk ts key value (set_all rs st)).
Proof. unfold set_all. now rewrite fold_left_app. Qed.

(** The state of a session that started on an empty file, after
    successful calls of [set] for the records [rs]. *)
Lemma set_all_fresh (rs : list (Z * list Z * list Z)) :
  Forall valid_record rs ->
  _file (set_all rs fresh) = log_bytes rs
  /\ aligned (set_all rs fresh)
  /\ entries_point_at_last rs (_keyDir (set_all rs fresh))
  /\ (forall key,
         last_value rs key = None -> _keyDir (set_all rs fresh) !! key = None).
Proof.
  induction rs as [|[[ts k] v] rs IH] using rev_ind; intros Hrs.
  - split; [reflexivity|]. split; [reflexivity|]. split.
    + intros key entry. cbn. rewrite lookup_empty. discriminate.
    + intros key _. apply lookup_empty.
  - apply Forall_app in Hrs. destruct Hrs as [Hrs Hr].
    apply Forall_inv in Hr.
    destruct (IH Hrs) as (Hf & Ha & Hp & Hn).
    rewrite set_all_snoc, (set_Ok _ _ _ _ Hr). cbn [snd _file _keyDir].
    split; [|split; [|split]].
    + rewrite Hf, log_bytes_app. cbn [log_bytes flat_map].
      now rewrite app_nil_r.
    + unfold aligned in *. cbn [_file _writePosition].
      rewrite len_app. lia.
    + rewrite Ha, Hf. now apply entries_point_at_last_insert.
    + intros key. rewrite last_value_snoc.
      destruct (bool_decide (k = key)) eqn:Ek; [discriminate|].
      apply bool_decide_eq_false in Ek. intros Hl.
      rewrite lookup_insert_ne by exact Ek. now apply Hn.
Qed.

Lemma set_all_fresh_present (rs : list (Z * list Z * list Z)) (key : list Z) :
  Forall valid_record rs ->
  forall v, last_value rs key = Some v ->
            _keyDir (set_all rs fresh) !! key <> None.
Proof.
  induction rs as [|[[ts k] v] rs IH] using rev_ind.
  - discriminate.
  - intros Hrs v'. apply Forall_app in Hrs. destruct Hrs as [Hrs Hr].
    apply Forall_inv in Hr.
    rewrite set_all_snoc, (set_Ok _ _ _ _ Hr), last_value_snoc.
    cbn [snd _keyDir].
    destruct (bool_decide (k = key)) eqn:Ek.
    + apply bool_decide_eq_true in Ek. subst k. intros _.
      now rewrite lookup_insert_eq.
    + apply bool_decide_eq_false in Ek. intros Hl.
      rewrite lookup_insert_ne by exact Ek. now apply (IH Hrs v').
Qed.

Lemma get_set_all_fresh (rs : list (Z * list Z * list Z)) (key : list Z) :
  Forall valid_record rs ->
  Forall well_formed_record rs ->
  get key (set_all rs fresh) = (Ok (last_value rs key), set_all rs fresh).
Proof.
  intros Hrs Hws. destruct (set_all_fresh rs Hrs) as (Hf & Ha & Hp & Hn).
  destruct (_keyDir (set_all rs fresh) !! key) as [entry|] eqn:E.
  - destruct (get_points_at_last rs _ key entry Hws Hf Hp E)
      as (v & Hl & Hg).
    now rewrite Hl.
  - rewrite (get_absent _ _ E). f_equal. f_equal.
    destruct (last_value rs key) as [v|] eqn:El; [|reflexivity].
    exfalso. now apply (set_all_fresh_present rs key Hrs v El).
Qed.

(** Reads in a fresh session.  In a session that [DiskStorage] started on
    an empty file, after any sequence of successful calls of [set] with
    keys and values that are well-formed text, [get] returns for every
    key the value of the most recent call of [set] for that key (the
    empty string if that call wrote a tombstone) and [undefined] for a
    key that was never set; the file is the log of the calls and the
    cursor is at its end. *)
Theorem get_in_fresh_session (rs : list (Z * list Z * list Z)) (key : list Z) :
  Forall valid_record rs ->
  Forall well_formed_record rs ->
  let st := set_all rs fresh in
  DiskStorage [] = Ok fresh
  /\ _file st = log_bytes rs
  /\ _writePosition st = len (_file st)
  /\ get key st = (Ok (last_value rs key), st).
Proof.
  intros Hrs Hws st. destruct (set_all_fresh rs Hrs) as (Hf & Ha & _ & _).
  split; [reflexivity|]. split; [exact Hf|]. split; [exact Ha|].
  now apply get_set_all_fresh.
Qed.

Lemma get_in_fresh_session_witness :
  let rs := [(1, js "othello", js "shakespeare");
             (2, js "hamlet", js "shakespeare");
             (3, js "othello", js "marlowe")] in
  (Forall valid_record rs /\ Forall well_formed_record rs)
  /\ get (js "othello") (set_all rs fresh)
     = (Ok (Some (js "marlowe")), set_all rs fresh).
Proof.
  intros rs.
  assert (H : Forall valid_record rs).
  { repeat (constructor; [vm_compute; intuition discriminate|]).
    constructor. }
  assert (W : Forall well_formed_record rs).
  { repeat (constructor; [split; reflexivity|]). constructor. }
  split; [exact (conj H W)|].
  exact (proj2 (proj2 (proj2 (get_in_fresh_session rs (js "othello") H W)))).
Defined.

(** Close and reopen.  After a fresh session of successful calls of [set]
    with keys and values that are well-formed text, [DiskStorage] on the
    file that [close] leaves returns a store in which [get] gives, for
    every key whose most recent value is not the empty string, the same
    value as before the close.  A key with an unpaired surrogate is not
    found after the reopening (see [reopen_loses_unpaired_surrogate]). *)
Theorem reopen_after_fresh_session (rs : list (Z * list Z * list Z))
    (key : list Z) :
  Forall valid_record rs ->
  Forall well_formed_record rs ->
  live rs key = true ->
  exists st',
    DiskStorage (close (set_all rs fresh)) = Ok st'
    /\ fst (get key st') = fst (get key (set_all rs fresh))
    /\ fst (get key st') = Ok (last_value rs key).
Proof.
  intros Hrs Hws Hlive.
  destruct (set_all_fresh rs Hrs) as (Hf & _ & _ & _).
  pose proof (get_set_all_fresh rs key Hrs Hws) as Hg.
  unfold close. rewrite Hf, (DiskStorage_log_bytes rs Hrs).
  eexists. split; [reflexivity|].
  pose proof (replay_live rs key Hws Hlive) as Hhas. unfold has in Hhas.
  destruct (replay rs 0 ∅ !! key) as [entry|] eqn:E; [|discriminate].
  destruct (get_points_at_last rs
              {| _file := log_bytes rs; _keyDir := replay rs 0 ∅;
                 _writePosition := 0 |} key entry Hws eq_refl
              (replay_points_at_last rs Hrs Hws) E) as (v & Hl & Hg').
  rewrite Hg', Hg, Hl. split; reflexivity.
Qed.

Lemma reopen_after_fresh_session_witness :
  let rs := [(1, js "othello", js "shakespeare");
             (2, js "hamlet", js "shakespeare");
             (3, js "othello", [])] in
  (Forall valid_record rs /\ Forall well_formed_record rs
   /\ live rs (js "hamlet") = true)
  /\ exists st',
      DiskStorage (close (set_all rs fresh)) = Ok st'
      /\ fst (get (js "hamlet") st')
         = fst (get (js "hamlet") (set_all rs fresh))
      /\ fst (get (js "hamlet") st') = Ok (last_value rs (js "hamlet")).
Proof.
  intros rs.
  assert (H : Forall valid_record rs).
  { repeat (constructor; [vm_compute; intuition discriminate|]).
    constructor. }
  assert (W : Forall well_formed_record rs).
  { repeat (constructor; [split; reflexivity|]). constructor. }
  assert (Hl : live rs (js "hamlet") = true) by reflexivity.
  exact (conj (conj H (conj W Hl))
           (reopen_after_fresh_session rs (js "hamlet") H W Hl)).
Defined.

(** The key that is a lone leading surrogate: [get] finds it in the
    session that set it, and no longer after [close] and a new
    [DiskStorage], where the index holds the key U+FFFD instead. *)
Example reopen_loses_unpaired_surrogate :
  let st := set_all [(1, [55296], js "v")] fresh in
  fst (get [55296] st) = Ok (Some (js "v"))
  /\ exists st',
      DiskStorage (close st) = Ok st'
      /\ fst (get [55296] st') = Ok None
      /\ fst (get [REPLACEMENT] st') = Ok (Some (js "v")).
Proof.
  cbv zeta. split; [reflexivity|].
  eexists. split; [reflexivity|]. split; reflexivity.
Qed.

End Sessions.

Section RejectedSync.

(** A call of [set] that threw may still have taken effect.  When [sync]
    rejects, [set] throws and leaves index and cursor alone, but the row
    is in the file: on a log of valid records, and for a key and a value
    that are well-formed text, the store that [DiskStorage] returns for
    the file afterwards answers [get] for the key with the value of the
    rejected call. *)
Theorem rejected_sync_persists (rs : list (Z * list Z * list Z)) (st : Store)
    (ts : Z) (key value : list Z) :
  Forall valid_record rs ->
  _file st = log_bytes rs ->
  valid_record (ts, key, value) ->
  isWellFormed key ->
  isWellFormed value ->
  value <> [] ->
  let st' := snd (set SyncFails ts key value st) in
  fst (set SyncFails ts key value st) = Throw EIO
  /\ _keyDir st' = _keyDir st
  /\ exists st'',
      DiskStorage (close st') = Ok st''
      /\ get key st'' = (Ok (Some value), st'').
Proof.
  intros Hrs Hf Hr Wk Wv Hv. unfold set, mbind, M_bind, lift.
  rewrite (encodeKV_record_bytes _ _ _ Hr). cbv zeta.
  cbn [file_write file_sync fst snd]. unfold close, with_file.
  cbn [_file _keyDir]. split; [reflexivity|]. split; [reflexivity|].
  assert (Hlog : _file st ++ record_bytes (ts, key, value)
                 = log_bytes (rs ++ [(ts, key, value)])).
  { rewrite Hf, log_bytes_app. cbn [log_bytes flat_map].
    now rewrite app_nil_r. }
  assert (Hall : Forall valid_record (rs ++ [(ts, key, value)])).
  { apply Forall_app. split; [exact Hrs|]. constructor; [exact Hr|].
    constructor. }
  rewrite Hlog, (DiskStorage_log_bytes _ Hall).
  eexists. split; [reflexivity|].
  assert (Hw : well_formed_record (ts, key, value)) by (split; assumption).
  assert (He : replay (rs ++ [(ts, key, value)]) 0 ∅ !! key
               = Some (mkKeyEntry ts (len (log_bytes rs))
                         (len (record_bytes (ts, key, value))))).
  { rewrite replay_snoc, replay_record_well_formed by exact Hw.
    destruct value as [|u value]; [now contradiction Hv|].
    cbn [is_empty andb]. apply lookup_insert_eq. }
  erewrite get_entry by (cbn [_keyDir]; exact He). cbn [_file].
  rewrite <- Hlog, Hf.
  pose proof (read_entry_exact (log_bytes rs) [] (ts, key, value) ts) as Hx.
  rewrite app_nil_r in Hx. rewrite Hx.
  rewrite (decodeKV_record_bytes _ _ _ Hr).
  destruct (stored_well_formed _ Hw) as [_ ->]. reflexivity.
Qed.

Lemma rejected_sync_persists_witness :
  let rs := [(1, js "name", js "jojo")] in
  let st := set_all rs fresh in
  (Forall valid_record rs /\ _file st = log_bytes rs
   /\ valid_record (2, js "city", js "oslo")
   /\ isWellFormed (js "city") /\ isWellFormed (js "oslo")
   /\ js "oslo" <> [])
  /\ fst (set SyncFails 2 (js "city") (js "oslo") st) = Throw EIO
  /\ exists st'',
      DiskStorage (close (snd (set SyncFails 2 (js "city") (js "oslo") st)))
      = Ok st''
      /\ get (js "city") st'' = (Ok (Some (js "oslo")), st'').
Proof.
  intros rs st.
  assert (H1 : Forall valid_record rs).
  { constructor; [vm_compute; intuition discriminate|constructor]. }
  assert (H2 : _file st = log_bytes rs) by reflexivity.
  assert (H3 : valid_record (2, js "city", js "oslo"))
    by (vm_compute; intuition discriminate).
  assert (W1 : isWellFormed (js "city")) by reflexivity.
  assert (W2 : isWellFormed (js "oslo")) by reflexivity.
  assert (H4 : js "oslo" <> []) by discriminate.
  pose proof (rejected_sync_persists rs st 2 (js "city") (js "oslo")
                H1 H2 H3 W1 W2 H4) as (Ha & _ & Hb).
  exact (conj (conj H1 (conj H2 (conj H3 (conj W1 (conj W2 H4)))))
           (conj Ha Hb)).
Defined.

End RejectedSync.

Section Memory.

Lemma memory_set_all_snoc (rs : list (Z * list Z * list Z)) (ts : Z)
    (key value : list Z) (keyDir : gmap (list Z) (list Z)) :
  memory_set_all (rs ++ [(ts, key, value)]) keyDir
  = MemoryStore.set key value (memory_set_all rs keyDir).
Proof. unfold memory_set_all. now rewrite fold_left_app. Qed.

(** The memory store: after any sequence of calls of [set] on a new
    instance, [get] returns the value of the most recent call for the key,
    an empty string included, and [undefined] for a key never set; after
    [close] every key is gone. *)
Theorem MemoryStore_get_last (rs : list (Z * list Z * list Z))
    (key : list Z) :
  MemoryStore.get key (memory_set_all rs MemoryStore.MemoryStorage)
  = last_value rs key
  /\ MemoryStore.get key
       (MemoryStore.close (memory_set_all rs MemoryStore.MemoryStorage))
     = None.
Proof.
  split; [|apply lookup_empty].
  induction rs as [|[[ts k] v] rs IH] using rev_ind.
  - apply lookup_empty.
  - rewrite memory_set_all_snoc, last_value_snoc.
    unfold MemoryStore.get, MemoryStore.set in *.
    destruct (bool_decide (k = key)) eqn:Ek.
    + apply bool_decide_eq_true in Ek. subst k. apply lookup_insert_eq.
    + apply bool_decide_eq_false in Ek. now rewrite lookup_insert_ne.
Qed.

(** The disk store in a fresh session reads like the memory store: after
    the same successful calls of [set], with keys and values that are
    well-formed text, [get] of the disk store returns what [get] of the
    memory store returns, for every key.  The memory store returns every
    string as it was set; the disk store returns a value with an
    unpaired surrogate with U+FFFD in its place (see
    [DiskStore_differs_on_unpaired_surrogate]). *)
Theorem DiskStore_reads_like_MemoryStore (rs : list (Z * list Z * list Z))
    (key : list Z) :
  Forall valid_record rs ->
  Forall well_formed_record rs ->
  fst (get key (set_all rs fresh))
  = Ok (MemoryStore.get key (memory_set_all rs MemoryStore.MemoryStorage)).
Proof.
  intros Hrs Hws.
  rewrite (get_set_all_fresh rs key Hrs Hws).
  cbn [fst]. f_equal. symmetry. clear Hrs Hws.
  induction rs as [|[[ts k] v] rs IH] using rev_ind.
  - apply lookup_empty.
  - rewrite memory_set_all_snoc, last_value_snoc.
    unfold MemoryStore.get, MemoryStore.set in *.
    destruct (bool_decide (k = key)) eqn:Ek.
    + apply bool_decide_eq_true in Ek. subst k. apply lookup_insert_eq.
    + apply bool_decide_eq_false in Ek. rewrite lookup_insert_ne by exact Ek.
      now apply IH.
Qed.

Lemma DiskStore_reads_like_MemoryStore_witness :
  let rs := [(1, js "name", js "jojo");
             (2, js "name", [])] in
  (Forall valid_record rs /\ Forall well_formed_record rs)
  /\ fst (get (js "name") (set_all rs fresh))
     = Ok (MemoryStore.get (js "name")
             (memory_set_all rs MemoryStore.MemoryStorage)).
Proof.
  intros rs.
  assert (H : Forall valid_record rs).
  { repeat (constructor; [vm_compute; intuition discriminate|]).
    constructor. }
  assert (W : Forall well_formed_record rs).
  { repeat (constructor; [split; reflexivity|]). constructor. }
  exact (conj (conj H W)
           (DiskStore_reads_like_MemoryStore rs (js "name") H W)).
Defined.

Example DiskStore_differs_on_unpaired_surrogate :
  let rs := [(1, js "k", [55296])] in
  fst (get (js "k") (set_all rs fresh)) = Ok (Some [REPLACEMENT])
  /\ MemoryStore.get (js "k") (memory_set_all rs MemoryStore.MemoryStorage)
     = Some [55296].
Proof. split; reflexivity. Qed.

End Memory.

Section Witnesses.

Lemma get_after_set_aligned_witness :
  let st := set_all [(1, js "name", js "jojo")] fresh in
  (aligned st /\ valid_record (2, js "city", js "oslo")
   /\ isWellFormed (js "city") /\ isWellFormed (js "oslo"))
  /\ get (js "city") (snd (set DiskOk 2 (js "city") (js "oslo") st))
     = (Ok (Some (js "oslo")),
        snd (set DiskOk 2 (js "city") (js "oslo") st)).
Proof.
  intros st.
  assert (H1 : aligned st) by reflexivity.
  assert (H2 : valid_record (2, js "city", js "oslo"))
    by (vm_compute; intuition discriminate).
  assert (W1 : isWellFormed (js "city")) by reflexivity.
  assert (W2 : isWellFormed (js "oslo")) by reflexivity.
  exact (conj (conj H1 (conj H2 (conj W1 W2)))
           (get_after_set_aligned 2 (js "city") (js "oslo") st H1 H2 W1 W2)).
Defined.

Lemma get_after_delete_and_reopen_witness :
  let rs := [(1, js "hamlet", js "shakespeare")] in
  let st := set_all rs fresh in
  (Forall valid_record rs /\ _file st = log_bytes rs
   /\ valid_record (2, js "othello", js "shakespeare")
   /\ in_uint32 3 /\ js "shakespeare" <> [])
  /\ exists st3,
      DiskStorage
        (close (snd (set DiskOk 3 (js "othello") []
                       (snd (set DiskOk 2 (js "othello") (js "shakespeare")
                               st)))))
      = Ok st3
      /\ _keyDir st3 !! (js "othello") = None
      /\ get (js "othello") st3 = (Ok None, st3).
Proof.
  intros rs st.
  assert (H1 : Forall valid_record rs).
  { constructor; [vm_compute; intuition discriminate|constructor]. }
  assert (H2 : _file st = log_bytes rs) by reflexivity.
  assert (H3 : valid_record (2, js "othello", js "shakespeare"))
    by (vm_compute; intuition discriminate).
  assert (H4 : in_uint32 3) by (vm_compute; intuition discriminate).
  assert (H5 : js "shakespeare" <> []) by discriminate.
  exact (conj (conj H1 (conj H2 (conj H3 (conj H4 H5))))
           (get_after_delete_and_reopen rs st 2 3 (js "othello")
              (js "shakespeare") H1 H2 H3 H4 H5)).
Defined.

Lemma get_after_recovery_witness :
  let rs := [(1, js "othello", js "shakespeare");
             (2, js "hamlet", js "shakespeare");
             (3, js "othello", [])] in
  (Forall valid_record rs /\ Forall well_formed_record rs)
  /\ exists st,
      DiskStorage (log_bytes rs) = Ok st
      /\ (forall key entry,
             _keyDir st !! key = Some entry ->
             exists v, last_value rs key = Some v
                       /\ get key st = (Ok (Some v), st))
      /\ (forall key, live rs key = true -> has (_keyDir st) key = true)
      /\ (forall key, last_value rs key = None -> get key st = (Ok None, st)).
Proof.
  intros rs.
  assert (H : Forall valid_record rs).
  { repeat (constructor; [vm_compute; intuition discriminate|]).
    constructor. }
  assert (W : Forall well_formed_record rs).
  { repeat (constructor; [split; reflexivity|]). constructor. }
  exact (conj (conj H W) (get_after_recovery rs H W)).
Defined.

End Witnesses.

Section Termination.

(** The recovery scan ends on every file.  Each iteration moves the offset
    forward by at least the twelve bytes of a header, so the loop of
    [_initKeyDir] never uses up a fuel larger than the number of bytes of
    the file, and [DiskStorage] either returns the store with the index
    the loop built, the file as it was and the cursor 0, or throws the
    error that stopped the loop. *)
Theorem DiskStorage_scan_ends (file : list byte) :
  exists r keyDir,
    (forall fuel : nat,
        (length file <= fuel)%nat ->
        _initKeyDir_loop fuel file (len file) 0 ∅ = Some (r, keyDir))
    /\ DiskStorage file
       = match r with
         | Ok _ => Ok {| _file := file; _keyDir := keyDir;
                         _writePosition := 0 |}
         | Throw e => Throw e
         end.
Proof.
  assert (Hmono : forall fuel offset (keyDir : gmap (list Z) KeyEntry),
             len file - offset <= Z.of_nat fuel ->
             _initKeyDir_loop (S fuel) file (len file) offset keyDir
             = _initKeyDir_loop fuel file (len file) offset keyDir).
  { induction fuel as [|fuel IH]; intros offset keyDir Hf.
    - rewrite !_initKeyDir_loop_done by lia. reflexivity.
    - destruct (Z_lt_ge_dec offset (len file)) as [Hlt|Hge].
      + rewrite (_initKeyDir_loop_S (S fuel)), (_initKeyDir_loop_S fuel)
          by exact Hlt.
        destruct (decodeHeader file offset) as [[[ts ks] vs]|e] eqn:Eh;
          [|reflexivity].
        destruct (decodeHeader_range _ _ _ _ _ Eh) as (_ & Hk & Hv & _).
        unfold in_uint32, HEADER_SIZE in *. cbv zeta. apply IH. lia.
      + rewrite !_initKeyDir_loop_done by lia. reflexivity. }
  destruct (_initKeyDir_loop_fuel (length file) file (len file) 0 ∅)
    as (r & kd & E).
  { unfold len. lia. }
  exists r, kd. split.
  - intros fuel Hf.
    induction fuel as [|fuel IH].
    + assert (length file = 0%nat) as H0 by lia. now rewrite H0 in E.
    + destruct (Nat.eq_dec (length file) (S fuel)) as [Heq|Hne].
      * now rewrite Heq in E.
      * rewrite Hmono by (unfold len; lia). apply IH. lia.
  - destruct (_initKeyDir_loop_result (mkStore file ∅ 0))
      as (r' & kd' & E' & Hi).
    cbn [_file _keyDir] in E'.
    rewrite Hmono in E' by (unfold len; lia).
    rewrite E in E'. injection E' as <- <-.
    unfold DiskStorage. rewrite Hi. destruct r as [[]|e]; reflexivity.
Qed.

End Termination.

